(** * Optimistic synchronisation client: model and properties

    A shallow embedding of the three pieces of the client:

    - [sync/src/App.tsx]: the [WebSocketManager] class (connection life
      cycle, reconnection, [send], [disconnect]) and the React component's
      reconciler ([handleMessage], [addUser], [editUser], [deleteUser]);
    - [frontend/src/App1.tsx]: the earlier reader [socket.onmessage];
    - [frontend/src/local_sync.ts]: [LocalStorageWithIndex].

    JavaScript objects used as string-keyed maps are [gmap string _];
    a string is the bytes of its UTF-8 form; the event loop is a total step function over an explicit world made
    of the manager, the browser (sockets, pending timeouts, console) and
    the component state. *)

From Stdlib Require Import ZArith Ascii String List.
From stdpp Require Import gmap strings list fin_maps.

Local Open Scope string_scope.
Local Open Scope nat_scope.

(** ** JavaScript data *)

(** The values a field can hold ([any] in the source): [undefined] and
    the primitives JSON carries. *)
Inductive jsval :=
  | VUndefined
  | VNull
  | VBool (b : bool)
  | VNum (n : Z)
  | VStr (s : string).

(** A plain object: own enumerable string-keyed properties. *)
Abbreviation obj := (gmap string jsval).

(** [{...o}] where [o] may be [undefined]: spreading [undefined] copies
    nothing. *)
Definition spread (o : option obj) : obj := default ∅ o.

(** *** Strings *)

(** A JavaScript string is kept as the bytes of its UTF-8 form: its
    sequence of code points (a surrogate pair read as one code point, a
    lone surrogate as itself), each written in one to four bytes by
    [utf8].  Every string has a value, different strings have different
    values ([of_points_inj]), and a string of ASCII characters is its own
    value, so the literals of the source are written as they are. *)
Definition is_code_point (cp : N) : Prop := (cp < 1114112)%N.

Definition utf8 (cp : N) : list ascii :=
  if (cp <? 128)%N then [ascii_of_N cp]
  else if (cp <? 2048)%N then
    [ascii_of_N (192 + cp / 64); ascii_of_N (128 + cp mod 64)]
  else if (cp <? 65536)%N then
    [ascii_of_N (224 + cp / 4096); ascii_of_N (128 + (cp / 64) mod 64);
     ascii_of_N (128 + cp mod 64)]
  else
    [ascii_of_N (240 + cp / 262144); ascii_of_N (128 + (cp / 4096) mod 64);
     ascii_of_N (128 + (cp / 64) mod 64); ascii_of_N (128 + cp mod 64)].

(** The string with the given code points. *)
Definition of_points (cps : list N) : string :=
  string_of_list_ascii (concat (map utf8 cps)).

(** The first code point of a byte sequence and the bytes after it. *)
Definition first_point (l : list ascii) : option (N * list ascii) :=
  match l with
  | [] => None
  | b0 :: l1 =>
      let n0 := N_of_ascii b0 in
      if (n0 <? 128)%N then Some (n0, l1)
      else if (n0 <? 192)%N then None
      else if (n0 <? 224)%N then
        match l1 with
        | b1 :: l2 => Some (((n0 - 192) * 64 + (N_of_ascii b1 - 128))%N, l2)
        | _ => None
        end
      else if (n0 <? 240)%N then
        match l1 with
        | b1 :: b2 :: l3 =>
            Some (((n0 - 224) * 4096 + (N_of_ascii b1 - 128) * 64
                   + (N_of_ascii b2 - 128))%N, l3)
        | _ => None
        end
      else
        match l1 with
        | b1 :: b2 :: b3 :: l4 =>
            Some (((n0 - 240) * 262144 + (N_of_ascii b1 - 128) * 4096
                   + (N_of_ascii b2 - 128) * 64 + (N_of_ascii b3 - 128))%N, l4)
        | _ => None
        end
  end.

(** *** [String.prototype.trim] *)

(** The code points [trim] strips, ECMAScript's WhiteSpace and
    LineTerminator: TAB, LF, VT, FF, CR, SPACE, NBSP (U+00A0), U+1680,
    U+2000 to U+200A, U+2028, U+2029, U+202F, U+205F, U+3000 and
    U+FEFF. *)
Definition whitespace_points : list N :=
  [9; 10; 11; 12; 13; 32; 160; 5760;
   8192; 8193; 8194; 8195; 8196; 8197; 8198; 8199; 8200; 8201; 8202;
   8232; 8233; 8239; 8287; 12288; 65279]%N.

Definition is_whitespace (cp : N) : bool := existsb (N.eqb cp) whitespace_points.

(** Their byte forms: six single bytes, [194 160] for NBSP, three bytes
    for the others. *)
Definition whitespace_encodings : list (list ascii) :=
  Eval vm_compute in map utf8 whitespace_points.

(** [after_prefix w l] is what follows [w] in [l], when [l] starts with
    [w]. *)
Fixpoint after_prefix (w l : list ascii) : option (list ascii) :=
  match w, l with
  | [], _ => Some l
  | a :: w', b :: l' => if Ascii.eqb a b then after_prefix w' l' else None
  | _ :: _, [] => None
  end.

(** What follows the first character of [l], when that character is one
    of [table]. *)
Fixpoint strip_one (table : list (list ascii)) (l : list ascii) : option (list ascii) :=
  match table with
  | [] => None
  | w :: table' =>
      match after_prefix w l with
      | Some r => Some r
      | None => strip_one table' l
      end
  end.

Definition strips (table : list (list ascii)) (l : list ascii) : bool :=
  match strip_one table l with Some _ => true | None => false end.

(** Strip leading characters of [table], at most [fuel] of them; the
    length of [l] is fuel enough ([strip_clean]). *)
Fixpoint strip (table : list (list ascii)) (fuel : nat) (l : list ascii) : list ascii :=
  match fuel with
  | 0 => l
  | S fuel' =>
      match strip_one table l with
      | Some r => strip table fuel' r
      | None => l
      end
  end.

Definition trimStart_bytes (l : list ascii) : list ascii :=
  strip whitespace_encodings (length l) l.

(** The end is trimmed as the start of the reversed bytes, against the
    reversed byte forms. *)
Definition trimEnd_bytes (l : list ascii) : list ascii :=
  rev (strip (map (@rev ascii) whitespace_encodings) (length l) (rev l)).

Definition trimStart (s : string) : string :=
  string_of_list_ascii (trimStart_bytes (list_ascii_of_string s)).

Definition trimEnd (s : string) : string :=
  string_of_list_ascii (trimEnd_bytes (list_ascii_of_string s)).

Definition trim (s : string) : string := trimEnd (trimStart s).

(** "Has leading / trailing whitespace": the first, the last character
    is one [trim] strips. *)
Definition starts_with_whitespace (s : string) : bool :=
  strips whitespace_encodings (list_ascii_of_string s).

Definition ends_with_whitespace (s : string) : bool :=
  strips (map (@rev ascii) whitespace_encodings) (rev (list_ascii_of_string s)).

(** [trim] read on the code points themselves, to compare with
    ([trim_of_points]). *)
Fixpoint drop_while {A} (p : A → bool) (l : list A) : list A :=
  match l with
  | [] => []
  | x :: l' => if p x then drop_while p l' else l
  end.

Definition trim_points (cps : list N) : list N :=
  rev (drop_while is_whitespace (rev (drop_while is_whitespace cps))).

(** Tests used to show that a whitespace byte form found at the start or
    the end of a string is a whole character of it: two byte forms of
    which one starts or ends the other are the same one. *)
Definition comparable (w u : list ascii) : bool :=
  match after_prefix w u with
  | Some _ => true
  | None => match after_prefix u w with Some _ => true | None => false end
  end.

Fixpoint bytes_eqb (a b : list ascii) : bool :=
  match a, b with
  | [], [] => true
  | x :: a', y :: b' => Ascii.eqb x y && bytes_eqb a' b'
  | _, _ => false
  end.

Definition aligned (table : list (list ascii)) (cp : N) : bool :=
  let u := utf8 cp in
  let ru := rev u in
  forallb (λ w,
    if comparable w u then bytes_eqb w u && is_whitespace cp
    else if comparable (rev w) ru then bytes_eqb w u && is_whitespace cp
    else true) table.

Definition aligned_below (n : N) : N * bool :=
  let table := whitespace_encodings in
  N.iter n (λ '(i, b), (N.succ i, b && aligned table i)) (0%N, true).

(** The bytes after the first of a multi-byte form. *)
Definition is_continuation (b : ascii) : Prop :=
  (128 ≤ N_of_ascii b < 192)%N.

(** A form of at most three bytes whose first byte is no continuation
    byte and does not open a four-byte form. *)
Definition simple (w : list ascii) : bool :=
  match w with
  | x :: rest =>
      (length rest <=? 2)
      && ((N_of_ascii x <? 128)%N
          || ((192 <=? N_of_ascii x)%N && (N_of_ascii x <? 240)%N))
  | [] => false
  end.

(** ** Data model of [sync/src/App.tsx] *)

(** [interface User]. *)
Record User := { name : string; age : Z; email : string }.

(** The own properties of a [User] object, as [{...userData}] copies
    them. *)
Definition user_fields (u : User) : obj :=
  <["name" := VStr (name u)]>
    (<["age" := VNum (age u)]>
       (<["email" := VStr (email u)]> ∅)).

Inductive MsgType := T_add | T_edit | T_delete.

(** The object literal handed to [send]: [type] and [key] always, [data]
    for an add, [field]/[value] for an edit as [editUser] writes it,
    [row_changes] for an edit as the reader expects it. *)
Record Message := {
  type : MsgType;
  key : string;
  data : option User;
  row_changes : option obj;
  field : option string;
  value : option jsval
}.

(** A message on the wire: the sender's object plus the three stamped
    properties.  [interface WebSocketMessage] names the part the reader
    uses ([type], [key], [data], [row_changes], [version]). *)
Record WebSocketMessage := {
  body : Message;
  version : Z;
  clientId : option string;
  time : option string
}.

(** [{...message, version, clientId, time}] *)
Definition stamp (message : Message) (v : Z) (cid now : string) : WebSocketMessage :=
  {| body := message; version := v; clientId := Some cid; time := Some now |}.

(** *** Component state *)

Inductive ConnectionStatus := connecting | connected | disconnected.

(** [users] is [Record<string, UserWithSync>]; an entry is kept as the
    object it is at run time, since [editUser] and the edit case can
    leave a partial record. *)
Record AppState := {
  users : gmap string obj;
  connectionStatus : ConnectionStatus
}.

(** [setUsers(prev => f prev)] and [setConnectionStatus(s)]. *)
Definition setUsers (f : gmap string obj → gmap string obj) (st : AppState) : AppState :=
  {| users := f (users st); connectionStatus := connectionStatus st |}.

Definition setConnectionStatus (s : ConnectionStatus) (st : AppState) : AppState :=
  {| users := users st; connectionStatus := s |}.

Definition initialApp : AppState := {| users := ∅; connectionStatus := connecting |}.

(** ** Reconciler *)

Module Reconciler.

(** [{ ...msg.data, is_deleted: false }] *)
Definition with_sync (d : User) : obj := <["is_deleted" := VBool false]> (user_fields d).

(** [handleMessage], App.tsx:114-149. *)
Definition handleMessage (msg : WebSocketMessage) (st : AppState) : AppState :=
  let st := setConnectionStatus connected st in
  match type (body msg) with
  | T_add =>
      match data (body msg) with
      | Some d => setUsers (λ prev, <[key (body msg) := with_sync d]> prev) st
      | None => st
      end
  | T_edit =>
      match row_changes (body msg) with
      | Some rc =>
          setUsers (λ prev,
            <[key (body msg) := rc ∪ spread (prev !! key (body msg))]> prev) st
      | None => st
      end
  | T_delete => setUsers (λ prev, delete (key (body msg)) prev) st
  end.

(** The three intents of the component.  Each is split the way the
    source writes it: the optimistic [setUsers] updater, then the
    object given to [send]. *)

Definition userData (name : string) (age : Z) (email : string) : User :=
  {| name := trim name; age := age; email := trim email |}.

Definition addUser_optimistic (name : string) (age : Z) (email : string)
  (prev : gmap string obj) : gmap string obj :=
  <[name := with_sync (userData name age email)]> prev.

Definition addUser_message (name : string) (age : Z) (email : string) : Message :=
  {| type := T_add; key := name; data := Some (userData name age email);
     row_changes := None; field := None; value := None |}.

Definition editUser_optimistic (key field : string) (value : jsval)
  (prev : gmap string obj) : gmap string obj :=
  <[key := <[field := value]> (spread (prev !! key))]> prev.

Definition editUser_message (key field : string) (value : jsval) : Message :=
  {| type := T_edit; key := key; data := None;
     row_changes := None; field := Some field; value := Some value |}.

Definition deleteUser_optimistic (key : string)
  (prev : gmap string obj) : gmap string obj :=
  delete key prev.

Definition deleteUser_message (key : string) : Message :=
  {| type := T_delete; key := key; data := None;
     row_changes := None; field := None; value := None |}.

End Reconciler.

(** ** The browser: sockets, timeouts, console *)

Inductive ReadyState := CONNECTING | OPEN | CLOSING | CLOSED.

(** A text frame.  [JSON.stringify] of a message object is kept as the
    object it encodes; [Malformed] stands for any text [JSON.parse]
    rejects. *)
Inductive Frame :=
  | JSON_stringify (m : WebSocketMessage)
  | Malformed (raw : string).

(** [JSON.parse(e.data)]; [None] when it throws [SyntaxError]. *)
Definition JSON_parse (f : Frame) : option WebSocketMessage :=
  match f with
  | JSON_stringify m => Some m
  | Malformed _ => None
  end.

Record WebSocket := {
  url : string;
  readyState : ReadyState;
  sent : list Frame          (* frames handed to the transport, oldest first *)
}.

Inductive LogEntry :=
  | console_log (text : string)
  | console_log_num (text : string) (n : nat)
  | console_error (text : string).

(** Sockets are named by their position in [sockets] (creation order);
    [timers] holds the delay, in milliseconds, of every timeout that has
    been set and has not fired yet.  [accepts_url] says for which URLs
    the [WebSocket] constructor returns instead of throwing. *)
Record Browser := {
  sockets : list WebSocket;
  timers : list Z;
  console : list LogEntry;
  accepts_url : string → bool
}.

Definition log (e : LogEntry) (b : Browser) : Browser :=
  {| sockets := sockets b; timers := timers b;
     console := console b ++ [e]; accepts_url := accepts_url b |}.

(** [setTimeout(callback, delay)]; every timeout of this program runs
    the same callback, so only the delay is recorded. *)
Definition setTimeout (delay : Z) (b : Browser) : Browser :=
  {| sockets := sockets b; timers := timers b ++ [delay];
     console := console b; accepts_url := accepts_url b |}.

Definition clearFired (t : nat) (b : Browser) : Browser :=
  {| sockets := sockets b; timers := take t (timers b) ++ drop (S t) (timers b);
     console := console b; accepts_url := accepts_url b |}.

Definition set_sockets (l : list WebSocket) (b : Browser) : Browser :=
  {| sockets := l; timers := timers b;
     console := console b; accepts_url := accepts_url b |}.

Definition set_readyState (r : ReadyState) (s : WebSocket) : WebSocket :=
  {| url := url s; readyState := r; sent := sent s |}.

(** [socket.send(text)] on an open socket. *)
Definition transmit (f : Frame) (s : WebSocket) : WebSocket :=
  {| url := url s; readyState := readyState s; sent := sent s ++ [f] |}.

(** [socket.close()]: starts the closing handshake unless the socket is
    already closing or closed; the close event comes later. *)
Definition close (s : WebSocket) : WebSocket :=
  match readyState s with
  | CONNECTING | OPEN => set_readyState CLOSING s
  | CLOSING | CLOSED => s
  end.

Definition update_socket (i : nat) (f : WebSocket → WebSocket) (b : Browser) : Browser :=
  match sockets b !! i with
  | Some s => set_sockets (<[i := f s]> (sockets b)) b
  | None => b
  end.

(** ** [class WebSocketManager] *)

Definition Callback := WebSocketMessage → AppState → AppState.

Module WebSocketManager.

Record t := {
  socket : option nat;
  clientId : string;
  clientVersion : Z;
  reconnectAttempts : nat;
  maxReconnectAttempts : nat;
  onMessageCallback : option Callback
}.

(** [new WebSocketManager(clientId)] *)
Definition new (clientId : string) : t :=
  {| socket := None; clientId := clientId; clientVersion := 0;
     reconnectAttempts := 0; maxReconnectAttempts := 5;
     onMessageCallback := None |}.

Definition set_socket (s : option nat) (m : t) : t :=
  {| socket := s; clientId := clientId m; clientVersion := clientVersion m;
     reconnectAttempts := reconnectAttempts m;
     maxReconnectAttempts := maxReconnectAttempts m;
     onMessageCallback := onMessageCallback m |}.

Definition set_clientVersion (v : Z) (m : t) : t :=
  {| socket := socket m; clientId := clientId m; clientVersion := v;
     reconnectAttempts := reconnectAttempts m;
     maxReconnectAttempts := maxReconnectAttempts m;
     onMessageCallback := onMessageCallback m |}.

Definition set_reconnectAttempts (n : nat) (m : t) : t :=
  {| socket := socket m; clientId := clientId m; clientVersion := clientVersion m;
     reconnectAttempts := n;
     maxReconnectAttempts := maxReconnectAttempts m;
     onMessageCallback := onMessageCallback m |}.

Definition set_onMessageCallback (cb : option Callback) (m : t) : t :=
  {| socket := socket m; clientId := clientId m; clientVersion := clientVersion m;
     reconnectAttempts := reconnectAttempts m;
     maxReconnectAttempts := maxReconnectAttempts m;
     onMessageCallback := cb |}.

End WebSocketManager.

(** The whole program state: the manager object, the browser it runs
    in, and the component state the callback updates. *)
Record World := {
  mgr : WebSocketManager.t;
  browser : Browser;
  app : AppState
}.

Definition on_mgr (f : WebSocketManager.t → WebSocketManager.t) (w : World) : World :=
  {| mgr := f (mgr w); browser := browser w; app := app w |}.

Definition on_browser (f : Browser → Browser) (w : World) : World :=
  {| mgr := mgr w; browser := f (browser w); app := app w |}.

Definition on_app (f : AppState → AppState) (w : World) : World :=
  {| mgr := mgr w; browser := browser w; app := f (app w) |}.

(** What a call hands back to its caller. *)
Inductive Completion :=
  | Returned (v : jsval)
  | Thrown (error : string).

Module Manager.
Import WebSocketManager.

Definition base_delay : Z := 2000.

(** [attemptReconnect], App.tsx:70-80.  The delay is read after the
    increment. *)
Definition attemptReconnect (w : World) : World :=
  if decide (reconnectAttempts (mgr w) < maxReconnectAttempts (mgr w)) then
    let w := on_mgr (set_reconnectAttempts (S (reconnectAttempts (mgr w)))) w in
    on_browser (setTimeout (base_delay * Z.of_nat (reconnectAttempts (mgr w)))) w
  else w.

(** [`ws://localhost:8000/ws/${this.clientId}`] *)
Definition endpoint (m : t) : string := "ws://localhost:8000/ws/" ++ clientId m.

(** [connect(onMessage)], App.tsx:38-68.  The four handlers it
    installs are the same for every socket and are the [on...]
    functions below. *)
Definition connect (onMessage : Callback) (w : World) : World :=
  let w := on_mgr (set_onMessageCallback (Some onMessage)) w in
  if accepts_url (browser w) (endpoint (mgr w)) then
    let id := length (sockets (browser w)) in
    let s := {| url := endpoint (mgr w); readyState := CONNECTING; sent := [] |} in
    let w := on_browser (λ b, set_sockets (sockets b ++ [s]) b) w in
    on_mgr (set_socket (Some id)) w
  else
    let w := on_browser (log (console_error "Failed to connect WebSocket:")) w in
    attemptReconnect w.

Definition onopen (w : World) : World :=
  let w := on_browser (log (console_log "WebSocket connected")) w in
  on_mgr (set_reconnectAttempts 0) w.

(** A frame [JSON.parse] rejects makes the handler throw at its first
    statement: nothing is updated. *)
Definition onmessage (e : Frame) (w : World) : World :=
  match JSON_parse e with
  | None => w
  | Some msg =>
      let w := on_mgr (set_clientVersion (version msg)) w in
      match onMessageCallback (mgr w) with
      | Some cb => on_app (cb msg) w
      | None => w
      end
  end.

Definition onclose (w : World) : World :=
  let w := on_browser (log (console_log "WebSocket disconnected")) w in
  attemptReconnect w.

Definition onerror (w : World) : World :=
  on_browser (log (console_error "WebSocket error:")) w.

(** The callback given to [setTimeout] in [attemptReconnect]. *)
Definition ontimeout (w : World) : World :=
  let w := on_browser
             (log (console_log_num "Reconnection attempt" (reconnectAttempts (mgr w)))) w in
  match onMessageCallback (mgr w) with
  | Some cb => connect cb w
  | None => w
  end.

(** [this.socket && this.socket.readyState === WebSocket.OPEN]: the
    socket the manager holds, when it holds one and it is open. *)
Definition open_socket (w : World) : option nat :=
  match socket (mgr w) with
  | Some i =>
      match sockets (browser w) !! i with
      | Some s => match readyState s with OPEN => Some i | _ => None end
      | None => None
      end
  | None => None
  end.

(** [send(message)], App.tsx:82-93; [now] is [new Date().toISOString()].
    Neither branch has a [return] or a [throw]. *)
Definition send (message : Message) (now : string) (w : World) : Completion * World :=
  match open_socket w with
  | Some i =>
      let f := JSON_stringify
                 (stamp message (clientVersion (mgr w)) (clientId (mgr w)) now) in
      (Returned VUndefined, on_browser (update_socket i (transmit f)) w)
  | None =>
      (Returned VUndefined,
       on_browser (log (console_error "WebSocket is not connected")) w)
  end.

(** [disconnect()], App.tsx:95-100. *)
Definition disconnect (w : World) : World :=
  match socket (mgr w) with
  | Some i =>
      let w := on_browser (update_socket i close) w in
      on_mgr (set_socket None) w
  | None => w
  end.

End Manager.

(** ** The event loop *)

(** One task of the single-threaded loop: either the browser delivers
    an event of socket [s] or fires timeout [t], or the page calls one
    of the manager's public methods. *)
Inductive Event :=
  | EvOpen (s : nat)
  | EvMessage (s : nat) (e : Frame)
  | EvError (s : nat)
  | EvClose (s : nat)
  | EvTimeout (t : nat)
  | CallConnect (onMessage : Callback)
  | CallSend (message : Message) (now : string)
  | CallDisconnect.

Definition readyState_of (s : nat) (w : World) : option ReadyState :=
  readyState <$> sockets (browser w) !! s.

(** An event the browser cannot deliver in the current state (an open
    event for a socket that is not connecting, a message for a socket
    that is not open, an event of a closed or unknown socket, a timeout
    that is not pending) leaves the world as it is. *)
Definition step (ev : Event) (w : World) : World :=
  match ev with
  | EvOpen s =>
      match readyState_of s w with
      | Some CONNECTING =>
          Manager.onopen (on_browser (update_socket s (set_readyState OPEN)) w)
      | _ => w
      end
  | EvMessage s e =>
      match readyState_of s w with
      | Some OPEN => Manager.onmessage e w
      | _ => w
      end
  | EvError s =>
      match readyState_of s w with
      | Some CLOSED | None => w
      | Some _ => Manager.onerror w
      end
  | EvClose s =>
      match readyState_of s w with
      | Some CLOSED | None => w
      | Some _ =>
          Manager.onclose (on_browser (update_socket s (set_readyState CLOSED)) w)
      end
  | EvTimeout t =>
      match timers (browser w) !! t with
      | Some _ => Manager.ontimeout (on_browser (clearFired t) w)
      | None => w
      end
  | CallConnect cb => Manager.connect cb w
  | CallSend message now => snd (Manager.send message now w)
  | CallDisconnect => Manager.disconnect w
  end.

Definition run (evs : list Event) (w : World) : World :=
  foldl (λ w ev, step ev w) w evs.

(** ** The component of [sync/src/App.tsx] *)

Module App.
Import Reconciler.

(** The mount effect: a fresh manager for [clientId], connected with
    [handleMessage] as its callback. *)
Definition mount (clientId : string) (b : Browser) : World :=
  Manager.connect handleMessage
    {| mgr := WebSocketManager.new clientId; browser := b; app := initialApp |}.

(** [addUser], [editUser], [deleteUser], App.tsx:158-210: the
    optimistic update, then [wsManager.current?.send(...)]. *)
Definition addUser (name : string) (age : Z) (email : string) (now : string)
  (w : World) : World :=
  let w := on_app (setUsers (addUser_optimistic name age email)) w in
  snd (Manager.send (addUser_message name age email) now w).

Definition editUser (key field : string) (value : jsval) (now : string)
  (w : World) : World :=
  let w := on_app (setUsers (editUser_optimistic key field value)) w in
  snd (Manager.send (editUser_message key field value) now w).

Definition deleteUser (key : string) (now : string) (w : World) : World :=
  let w := on_app (setUsers (deleteUser_optimistic key)) w in
  snd (Manager.send (deleteUser_message key) now w).

End App.

(** ** The reader of [frontend/src/App1.tsx] *)

Module App1.
Section Store.
(** The users store is a solid-js store; its path setter is library
    code.  The reader is modelled over any store and any setter:
    [setUsers_key k v] is [setUsers(k, v)] ([v] possibly
    [undefined]) and [setUsers_field k f v] is [setUsers(k, f, v)],
    [None] when the setter throws. *)
Context {Store : Type}.
Variable setUsers_key : string → option User → Store → Store.
Variable setUsers_field : string → string → jsval → Store → option Store.

(** The module-level [users] store and [clientVersion]. *)
Record State := {
  users : Store;
  clientVersion : Z
}.

(** How the handler ended, with the state it left behind. *)
Inductive Outcome :=
  | Done (s : State)
  | Threw (s : State).

Definition state_of (o : Outcome) : State :=
  match o with Done s | Threw s => s end.

(** The [for ... of Object.entries(msg.row_changes)] loop. *)
Fixpoint apply_entries (key : string) (entries : list (string * jsval))
  (u : Store) : Store * bool :=
  match entries with
  | [] => (u, false)
  | (f, v) :: rest =>
      match setUsers_field key f v u with
      | Some u' => apply_entries key rest u'
      | None => (u, true)
      end
  end.

(** [socket.onmessage], App1.tsx:23-61.  [Object.entries(undefined)]
    throws [TypeError].  The entries of [row_changes] are taken in
    the map's own order. *)
Definition onmessage (msg : WebSocketMessage) (s : State) : Outcome :=
  let v := version msg in
  match type (body msg) with
  | T_add =>
      Done {| users := setUsers_key (key (body msg)) (data (body msg)) (users s);
              clientVersion := v |}
  | T_edit =>
      match row_changes (body msg) with
      | None => Threw {| users := users s; clientVersion := v |}
      | Some rc =>
          let '(u, threw) := apply_entries (key (body msg)) (map_to_list rc) (users s) in
          (if threw then Threw else Done) {| users := u; clientVersion := v |}
      end
  | T_delete =>
      Done {| users := setUsers_key (key (body msg)) None (users s);
              clientVersion := v |}
  end.

End Store.
Arguments State : clear implicits.
Arguments Outcome : clear implicits.
End App1.

(** ** [LocalStorageWithIndex], [frontend/src/local_sync.ts] *)

Module LocalStorage.

(** [window.localStorage]: text under text keys. *)
Abbreviation Storage := (gmap string string).

(** A computation over [localStorage] that may end in an exception
    ([None]); what it stored before throwing stays stored. *)
Definition M (A : Type) : Type := Storage → option A * Storage.

Definition ret {A} (a : A) : M A := λ st, (Some a, st).

Definition throw {A} : M A := λ st, (None, st).

Definition bind {A B} (c : M A) (k : A → M B) : M B :=
  λ st, match c st with
        | (Some a, st') => k a st'
        | (None, st') => (None, st')
        end.

(** A value that is there or an exception. *)
Definition lift {A} (o : option A) : M A :=
  match o with Some a => ret a | None => throw end.

Definition getItem (k : string) : M (option string) := λ st, (Some (st !! k), st).
Definition setItem (k v : string) : M unit := λ st, (Some tt, <[k := v]> st).
Definition removeItem (k : string) : M unit := λ st, (Some tt, delete k st).

End LocalStorage.

Notation "'let*' x := c 'in' k" := (LocalStorage.bind c (λ x, k))
  (at level 10, x name, c at level 100, k at level 200).
Notation "'let*' '_' := c 'in' k" := (LocalStorage.bind c (λ _, k))
  (at level 10, c at level 100, k at level 200).

(** [new Set(array)], [set.add(k)], [set.delete(k)], [Array.from(set)]:
    a set keeps its elements in insertion order, without repetition. *)
Definition Set_add (k : string) (s : list string) : list string :=
  if decide (k ∈ s) then s else s ++ [k].

Definition Set_of (l : list string) : list string :=
  foldl (λ s k, Set_add k s) [] l.

Definition Set_delete (k : string) (s : list string) : list string :=
  filter (λ x, x ≠ k) s.

Module LocalStorageWithIndex.
Import LocalStorage.

Section Cache.
(** The stored type [T] with [JSON.stringify] / [JSON.parse] on it,
    and the same pair on the [string[]] index; a parse is [None]
    when it throws. *)
Context {T : Type}.
Variable stringify : T → string.
Variable parse : string → option T.
Variable stringify_index : list string → string.
Variable parse_index : string → option (list string).

(** [this.prefix] *)
Variable prefix : string.

(** [this.indexKey = `__index__:${prefix}`] *)
Definition indexKey : string := "__index__:" ++ prefix.

(** [raw ? JSON.parse(raw) : []]: a missing or empty text is falsy. *)
Definition getIndex : M (list string) :=
  let* raw := LocalStorage.getItem indexKey in
  match raw with
  | None | Some EmptyString => ret []
  | Some text => lift (parse_index text)
  end.

Definition setIndex (index : list string) : M unit :=
  LocalStorage.setItem indexKey (stringify_index index).

(** [`${this.prefix}-${id}`] *)
Definition getFullKey (id : string) : string := prefix ++ "-" ++ id.

Definition setItem (id : string) (value : T) : M unit :=
  let fullKey := getFullKey id in
  let* _ := LocalStorage.setItem fullKey (stringify value) in
  let* index := getIndex in
  setIndex (Set_add fullKey (Set_of index)).

Definition getItem (id : string) : M (option T) :=
  let* raw := LocalStorage.getItem (getFullKey id) in
  match raw with
  | None | Some EmptyString => ret None
  | Some text => let* v := lift (parse text) in ret (Some v)
  end.

(** The loop of [getAllItems] over the index, [items] being the
    object under construction. *)
Fixpoint collect (index : list string) (items : gmap string T) : M (gmap string T) :=
  match index with
  | [] => ret items
  | key :: rest =>
      let* value := LocalStorage.getItem key in
      match value with
      | Some text =>
          let* v := lift (parse text) in
          collect rest (<[key := v]> items)
      | None => collect rest items
      end
  end.

Definition getAllItems : M (gmap string T) :=
  let* index := getIndex in
  collect index ∅.

Definition removeItem (id : string) : M unit :=
  let fullKey := getFullKey id in
  let* _ := LocalStorage.removeItem fullKey in
  let* index := getIndex in
  setIndex (Set_delete fullKey (Set_of index)).

Fixpoint removeEach (index : list string) : M unit :=
  match index with
  | [] => ret tt
  | key :: rest => let* _ := LocalStorage.removeItem key in removeEach rest
  end.

Definition clearAll : M unit :=
  let* index := getIndex in
  let* _ := removeEach index in
  LocalStorage.removeItem indexKey.

(** A call made on the cache, or a removal of a stored value that
    goes straight to [localStorage] without the cache. *)
Inductive Op :=
  | OpSetItem (id : string) (value : T)
  | OpRemoveItem (id : string)
  | OutOfBandRemove (id : string).

Definition perform (op : Op) : M unit :=
  match op with
  | OpSetItem id v => setItem id v
  | OpRemoveItem id => removeItem id
  | OutOfBandRemove id => LocalStorage.removeItem (getFullKey id)
  end.

Fixpoint performAll (ops : list Op) : M unit :=
  match ops with
  | [] => ret tt
  | op :: rest => let* _ := perform op in performAll rest
  end.

(** The reference the cache is compared with, written from the
    description of the operations rather than from the code: by id,
    the value most recently set and not removed since. *)
Definition spec_latest_step (m : gmap string T) (op : Op) : gmap string T :=
  match op with
  | OpSetItem id v => <[id := v]> m
  | OpRemoveItem id | OutOfBandRemove id => delete id m
  end.

Definition spec_latest (ops : list Op) : gmap string T :=
  foldl spec_latest_step ∅ ops.

(** Likewise from the description: the ids the calls leave in the
    index (a removal that bypasses the cache does not touch it). *)
Definition spec_indexed_step (s : gset string) (op : Op) : gset string :=
  match op with
  | OpSetItem id _ => {[id]} ∪ s
  | OpRemoveItem id => s ∖ {[id]}
  | OutOfBandRemove _ => s
  end.

Definition spec_indexed (ops : list Op) : gset string :=
  foldl spec_indexed_step ∅ ops.

Definition through_the_cache (op : Op) : bool :=
  match op with
  | OutOfBandRemove _ => false
  | _ => true
  end.

(** The index the storage holds, as [getIndex] reads it. *)
Definition index_is (st : Storage) (index : list string) : Prop :=
  (st !! indexKey = None ∧ index = [])
  ∨ st !! indexKey = Some (stringify_index index).

(** The storage agrees with a reference state: the index lists the
    composite keys of the indexed ids, every composite key holds the
    text of the id's value, and an id with a value is indexed. *)
Definition agrees (st : Storage) (m : gmap string T) (s : gset string) : Prop :=
  (∃ index, index_is st index
            ∧ ∀ k, k ∈ index ↔ ∃ id, k = getFullKey id ∧ id ∈ s)
  ∧ (∀ id, st !! getFullKey id = stringify <$> m !! id)
  ∧ (∀ id, is_Some (m !! id) → id ∈ s).

End Cache.
Arguments Op : clear implicits.
End LocalStorageWithIndex.

(** A small codec with the round-trip property, to run the cache on:
    values are texts stored as they are; an index is written as an
    opening bracket followed by its keys, every character of a key behind
    a dot and every key closed by a comma. *)
Module SampleCodec.

Definition stringify (v : string) : string := v.
Definition parse (text : string) : option string := Some text.

Fixpoint escape (s : string) : string :=
  match s with
  | EmptyString => ","
  | String c s' => String "." (String c (escape s'))
  end.

Fixpoint encode_items (l : list string) : string :=
  match l with
  | [] => EmptyString
  | s :: rest => escape s ++ encode_items rest
  end.

Definition stringify_index (l : list string) : string := "[" ++ encode_items l.

Fixpoint decode_items (text cur : string) (acc : list string) : option (list string) :=
  match text with
  | EmptyString => match cur with EmptyString => Some acc | _ => None end
  | String c rest =>
      if Ascii.eqb c "," then decode_items rest EmptyString (acc ++ [cur])
      else if Ascii.eqb c "." then
        match rest with
        | String d rest' => decode_items rest' (cur ++ String d EmptyString) acc
        | EmptyString => None
        end
      else None
  end.

Definition parse_index (text : string) : option (list string) :=
  match text with
  | String c rest => if Ascii.eqb c "[" then decode_items rest EmptyString [] else None
  | EmptyString => None
  end.

End SampleCodec.

(** ** Rounds of intent and confirmation *)

Module Rounds.
Import Reconciler.

(** One user intent of the component. *)
Inductive Intent :=
  | IAdd (name : string) (age : Z) (email : string)
  | IEdit (key field : string) (value : jsval)
  | IDelete (key : string).

Definition optimistic (i : Intent) : gmap string obj → gmap string obj :=
  match i with
  | IAdd n a e => addUser_optimistic n a e
  | IEdit k f v => editUser_optimistic k f v
  | IDelete k => deleteUser_optimistic k
  end.

Definition outbound (i : Intent) : Message :=
  match i with
  | IAdd n a e => addUser_message n a e
  | IEdit k f v => editUser_message k f v
  | IDelete k => deleteUser_message k
  end.

(** The transport hands back exactly what was sent. *)
Definition verbatim (m : Message) : Message := m.

(** The sent message with a [field]/[value] pair carried as
    [row_changes = {field: value}]; a message without such a pair is
    unchanged. *)
Definition batched (m : Message) : Message :=
  match field m, value m with
  | Some f, Some v =>
      {| type := type m; key := key m; data := data m;
         row_changes := Some {[ f := v ]}; field := field m; value := value m |}
  | _, _ => m
  end.

(** An intent together with the stamp [send] put on its message. *)
Record Round := {
  intent : Intent;
  sent_version : Z;
  sent_clientId : string;
  sent_time : string
}.

(** One round: the optimistic update (or not), then the confirmation
    as [confirm] delivers it. *)
Definition round (optimistically : bool) (confirm : Message → Message)
  (r : Round) (st : AppState) : AppState :=
  let st := if optimistically then setUsers (optimistic (intent r)) st else st in
  handleMessage
    (stamp (confirm (outbound (intent r))) (sent_version r) (sent_clientId r) (sent_time r))
    st.

Definition play (optimistically : bool) (confirm : Message → Message)
  (rs : list Round) (st : AppState) : AppState :=
  foldl (λ st r, round optimistically confirm r st) st rs.

(** The same on the running program.  [call] is the component's
    function for the intent; [call_without_optimistic] is that function
    with its [setUsers] left out, so only the [send]. *)
Definition call (i : Intent) (now : string) (w : World) : World :=
  match i with
  | IAdd n a e => App.addUser n a e now w
  | IEdit k f v => App.editUser k f v now w
  | IDelete k => App.deleteUser k now w
  end.

Definition call_without_optimistic (i : Intent) (now : string) (w : World) : World :=
  snd (Manager.send (outbound i) now w).

(** The confirmation of a call made in world [w]: the frame [send]
    stamps there, as [confirm] delivers it, arriving on the socket it
    went out on; nothing comes back when nothing went out. *)
Definition confirmation (confirm : Message → Message) (i : Intent) (now : string)
  (w : World) : list Event :=
  match Manager.open_socket w with
  | Some s =>
      [EvMessage s
         (JSON_stringify
            (stamp (confirm (outbound i))
               (WebSocketManager.clientVersion (mgr w))
               (WebSocketManager.clientId (mgr w)) now))]
  | None => []
  end.

Definition confirmed_call (optimistically : bool) (confirm : Message → Message)
  (c : Intent * string) (w : World) : World :=
  run (confirmation confirm (fst c) (snd c) w)
    ((if optimistically then call else call_without_optimistic) (fst c) (snd c) w).

Definition session (optimistically : bool) (confirm : Message → Message)
  (cs : list (Intent * string)) (w : World) : World :=
  foldl (λ w c, confirmed_call optimistically confirm c w) w cs.

End Rounds.

(** ** Sample data *)

Definition mendy (age : Z) : obj :=
  <["name" := VStr "Mendy"]>
    (<["age" := VNum age]>
       (<["email" := VStr "m@x.com"]> ∅)).

Definition one_user : AppState :=
  {| users := {[ "Mendy" := mendy 30 ]}; connectionStatus := connected |}.

(** "Mendy" after an ideographic space (U+3000) and before an em space
    and a byte order mark (U+2003, U+FEFF). *)
Definition wide_mendy : string :=
  of_points [12288%N] ++ "Mendy" ++ of_points [8195%N; 65279%N].

(** An inbound edit in the batched form. *)
Definition edit_batched (k : string) (rc : obj) (v : Z) : WebSocketMessage :=
  {| body := {| type := T_edit; key := k; data := None;
                row_changes := Some rc; field := None; value := None |};
     version := v; clientId := None; time := None |}.

(** An inbound edit in the single-pair form, as [editUser] writes it. *)
Definition edit_legacy (k f : string) (x : jsval) (v : Z) : WebSocketMessage :=
  {| body := Reconciler.editUser_message k f x;
     version := v; clientId := None; time := None |}.

(** [users[k]?.[f]]: field [f] of the entry at key [k]. *)
Definition field_of (us : gmap string obj) (k f : string) : option jsval :=
  us !! k ≫= (λ entry : obj, entry !! f).

(** A browser with nothing in it yet, whose [WebSocket] constructor
    accepts every URL; the component mounted in it; and the same once
    the first socket has opened. *)
Definition fresh_browser : Browser :=
  {| sockets := []; timers := []; console := []; accepts_url := λ _, true |}.

Definition mounted : World := App.mount "c1" fresh_browser.

Definition connected_world : World := step (EvOpen 0) mounted.

(** A browser whose constructor rejects every URL. *)
Definition rejecting_browser : Browser :=
  {| sockets := []; timers := []; console := []; accepts_url := λ _, false |}.

(** An inbound add for a user called [n], at version [v]. *)
Definition add_frame (n : string) (v : Z) : Frame :=
  JSON_stringify
    {| body := Reconciler.addUser_message n 30 "mendy@example.com";
       version := v; clientId := None; time := None |}.

(** Classes of events. *)
Definition is_open_event (ev : Event) : bool :=
  match ev with EvOpen _ => true | _ => false end.

Definition is_connect_call (ev : Event) : bool :=
  match ev with CallConnect _ => true | _ => false end.

(** The socket at position [i] is there and not closed yet, so the
    browser can still deliver its close event. *)
Definition can_close (i : nat) (w : World) : bool :=
  match readyState_of i w with
  | Some CLOSED | None => false
  | Some _ => true
  end.

(** Exhausted and quiet: the counter has reached the maximum and no
    timeout is pending. *)
Definition exhausted (w : World) : Prop :=
  WebSocketManager.maxReconnectAttempts (mgr w)
  ≤ WebSocketManager.reconnectAttempts (mgr w)
  ∧ timers (browser w) = [].

(** The failing loop of the mounted component: each close is followed by
    the one pending timeout firing, which opens the next socket. *)
Definition failing_loop : list Event :=
  [EvClose 0; EvTimeout 0; EvClose 1; EvTimeout 0; EvClose 2; EvTimeout 0;
   EvClose 3; EvTimeout 0; EvClose 4; EvTimeout 0; EvClose 5].

(** The pending timeouts after each prefix of a trace that ends in a
    close event. *)
Fixpoint timers_after_closes (evs : list Event) (w : World) : list (list Z) :=
  match evs with
  | [] => []
  | ev :: rest =>
      let w' := step ev w in
      match ev with
      | EvClose _ => timers (browser w') :: timers_after_closes rest w'
      | _ => timers_after_closes rest w'
      end
  end.

(** How many hyphens a text has; used to tell composite keys from the
    index key. *)
Fixpoint hyphens (s : string) : nat :=
  match s with
  | EmptyString => 0
  | String c s' => (if Ascii.eqb c "-" then 1 else 0) + hyphens s'
  end.

(** The storage holds nothing of the cache with this prefix yet. *)
Definition unused (prefix : string) (st : gmap string string) : Prop :=
  st !! LocalStorageWithIndex.indexKey prefix = None
  ∧ ∀ id, st !! LocalStorageWithIndex.getFullKey prefix id = None.

(** An inbound add that carries no [data]. *)
Definition add_without_data : WebSocketMessage :=
  {| body := {| type := T_add; key := "Mendy"; data := None;
                row_changes := None; field := None; value := None |};
     version := 4; clientId := None; time := None |}.

(** The round in which the age of Mendy is edited to 31. *)
Definition edit_round : Rounds.Round :=
  {| Rounds.intent := Rounds.IEdit "Mendy" "age" (VNum 31);
     Rounds.sent_version := 0; Rounds.sent_clientId := "c1";
     Rounds.sent_time := "2025-01-01T00:00:00.000Z" |}.

(** The cache with prefix [user] over the sample codec. *)
Definition sample_performAll :=
  LocalStorageWithIndex.performAll SampleCodec.stringify SampleCodec.stringify_index
    SampleCodec.parse_index "user".

Definition sample_getAllItems :=
  LocalStorageWithIndex.getAllItems SampleCodec.parse SampleCodec.parse_index "user".

(** ** The active view of [sync/src/App.tsx] *)

(** [ToBoolean]: what [!x] and [if (x)] test. *)
Definition truthy (v : jsval) : bool :=
  match v with
  | VUndefined | VNull => false
  | VBool b => b
  | VNum n => negb (n =? 0)%Z
  | VStr EmptyString => false
  | VStr _ => true
  end.

(** [Object.values(o)], as a list of the property values of [o]; the
    order is the map's own, and what is stated about the list does not
    depend on it. *)
Definition Object_values (us : gmap string obj) : list obj := (map_to_list us).*2.

(** [user => !user.is_deleted]; a missing property reads [undefined]. *)
Definition not_deleted (user : obj) : bool :=
  negb (truthy (default VUndefined (user !! "is_deleted"))).

(** [const activeUsers = Object.values(users).filter(user => !user.is_deleted)],
    App.tsx:221. *)
Definition activeUsers (st : AppState) : list obj :=
  filter (λ user, not_deleted user = true) (Object_values (users st)).

(** An inbound add for [n] with the given age, and an inbound delete. *)
Definition add_message (n : string) (a : Z) (v : Z) : WebSocketMessage :=
  {| body := Reconciler.addUser_message n a "m@x.com";
     version := v; clientId := None; time := None |}.

Definition delete_message (k : string) (v : Z) : WebSocketMessage :=
  {| body := Reconciler.deleteUser_message k;
     version := v; clientId := None; time := None |}.

(** ** Traces of the connection manager *)

(** A run of [send] calls, and a run of frames arriving on socket [s]. *)
Definition sends (msgs : list (Message * string)) : list Event :=
  map (λ p, CallSend (fst p) (snd p)) msgs.

Definition arrivals (s : nat) (frames : list Frame) : list Event :=
  map (EvMessage s) frames.

(** What the [onmessage] handler makes of one frame with callback [cb]:
    the callback on the parsed message, nothing for a frame that does not
    parse. *)
Definition deliver (cb : Callback) (st : AppState) (f : Frame) : AppState :=
  match JSON_parse f with
  | Some msg => cb msg st
  | None => st
  end.

(** The frame is the serialisation of a message that carries [cid] as
    its [clientId]. *)
Definition stamped_by (cid : string) (f : Frame) : Prop :=
  ∃ msg, f = JSON_stringify msg ∧ clientId msg = Some cid.

(** What happens in the page, seen from the component: the browser
    delivers an event (or a method of the manager is called), or the user
    triggers one of the three intents. *)
Inductive Action :=
  | Deliver (ev : Event)
  | Intend (i : Rounds.Intent) (now : string).

Definition act (a : Action) (w : World) : World :=
  match a with
  | Deliver ev => step ev w
  | Intend i now => Rounds.call i now w
  end.

Definition acts (l : list Action) (w : World) : World :=
  foldl (λ w a, act a w) w l.

Definition delivers_connect (a : Action) : bool :=
  match a with
  | Deliver ev => is_connect_call ev
  | Intend _ _ => false
  end.

(** Every socket of the browser was opened for the URL [u]; every frame
    handed to a socket carries [cid]. *)
Definition sockets_target (u : string) (w : World) : Prop :=
  ∀ j sk, sockets (browser w) !! j = Some sk → url sk = u.

Definition frames_stamped (cid : string) (w : World) : Prop :=
  ∀ j sk f, sockets (browser w) !! j = Some sk → f ∈ sent sk → stamped_by cid f.


(** The id an operation is about. *)
Definition op_id {T : Type} (op : LocalStorageWithIndex.Op T) : string :=
  match op with
  | LocalStorageWithIndex.OpSetItem id _
  | LocalStorageWithIndex.OpRemoveItem id
  | LocalStorageWithIndex.OutOfBandRemove id => id
  end.

(** The cache methods over the sample codec, with prefix [user]. *)
Definition sample_setItem :=
  LocalStorageWithIndex.setItem SampleCodec.stringify SampleCodec.stringify_index
    SampleCodec.parse_index "user".

Definition sample_getItem := LocalStorageWithIndex.getItem SampleCodec.parse "user".

Definition sample_removeItem :=
  LocalStorageWithIndex.removeItem SampleCodec.stringify_index SampleCodec.parse_index "user".


Definition sample_getIndex := LocalStorageWithIndex.getIndex SampleCodec.parse_index "user".

(** A storage whose index text is not the serialisation of an index. *)
Definition corrupt_storage : gmap string string := {[ "__index__:user" := "x" ]}.

Definition is_send_call (ev : Event) : bool :=
  match ev with CallSend _ _ => true | _ => false end.

(** A storage in which the indexed key [user-a] holds the empty text. *)
Definition storage_with_empty_item : gmap string string :=
  <["user-a" := EmptyString]>
    {[ "__index__:user" := SampleCodec.stringify_index ["user-a"] ]}.

(** A codec for values that rejects the empty text, as [JSON.parse]
    does, and takes every other text as it is. *)
Definition parse_nonempty (text : string) : option string :=
  match text with
  | EmptyString => None
  | _ => Some text
  end.

(** * Properties *)

(** ** Reconciler *)

Section ReconcilerFacts.
Import Reconciler.

Lemma users_setConnectionStatus s st : users (setConnectionStatus s st) = users st.
Proof. reflexivity. Qed.

Lemma handleMessage_add msg d st :
  type (body msg) = T_add → data (body msg) = Some d →
  users (handleMessage msg st) = <[key (body msg) := with_sync d]> (users st).
Proof. intros Ht Hd. unfold handleMessage. rewrite Ht, Hd. reflexivity. Qed.

Lemma handleMessage_edit msg rc st :
  type (body msg) = T_edit → row_changes (body msg) = Some rc →
  users (handleMessage msg st)
  = <[key (body msg) := rc ∪ spread (users st !! key (body msg))]> (users st).
Proof. intros Ht Hd. unfold handleMessage. rewrite Ht, Hd. reflexivity. Qed.

Lemma handleMessage_edit_ignored msg st :
  type (body msg) = T_edit → row_changes (body msg) = None →
  users (handleMessage msg st) = users st.
Proof. intros Ht Hd. unfold handleMessage. rewrite Ht, Hd. reflexivity. Qed.

Lemma handleMessage_add_ignored msg st :
  type (body msg) = T_add → data (body msg) = None →
  users (handleMessage msg st) = users st.
Proof. intros Ht Hd. unfold handleMessage. rewrite Ht, Hd. reflexivity. Qed.

Lemma handleMessage_delete msg st :
  type (body msg) = T_delete →
  users (handleMessage msg st) = delete (key (body msg)) (users st).
Proof. intros Ht. unfold handleMessage. rewrite Ht. reflexivity. Qed.

(** The status is set on every message, whatever its type. *)
Lemma handleMessage_status msg st :
  connectionStatus (handleMessage msg st) = connected.
Proof.
  unfold handleMessage.
  destruct (type (body msg)); [destruct (data (body msg)) | destruct (row_changes (body msg)) |];
    reflexivity.
Qed.

End ReconcilerFacts.

(** C10. An inbound add without [data], and an inbound edit without
    [row_changes], leave the users mapping exactly as it was: no entry is
    created, modified or removed. *)
Theorem handleMessage_without_payload_keeps_users (msg : WebSocketMessage) (st : AppState) :
  (type (body msg) = T_add ∧ data (body msg) = None)
  ∨ (type (body msg) = T_edit ∧ row_changes (body msg) = None) →
  users (Reconciler.handleMessage msg st) = users st.
Proof.
  intros [[Ht Hd] | [Ht Hr]].
  - by apply handleMessage_add_ignored.
  - by apply handleMessage_edit_ignored.
Qed.

Lemma handleMessage_without_payload_witness :
  ((type (body add_without_data) = T_add ∧ data (body add_without_data) = None)
   ∨ (type (body add_without_data) = T_edit ∧ row_changes (body add_without_data) = None))
  ∧ users (Reconciler.handleMessage add_without_data one_user) = users one_user.
Proof.
  split.
  - left. split; reflexivity.
  - apply handleMessage_without_payload_keeps_users. left. split; reflexivity.
Defined.

(** C7. Reconciling an edit whose [row_changes] is [{age: 31}] against
    the entity [{name: Mendy, age: 30, email: m@x.com}] gives
    [{name: Mendy, age: 31, email: m@x.com}]; and for any edit, a field
    that [row_changes] does not name keeps its value and the entries at
    all other keys are unchanged. *)
Theorem edit_changes_only_named_fields :
  (∀ (st : AppState) (k : string) (v : Z),
      users st !! k = Some (mendy 30) →
      users (Reconciler.handleMessage (edit_batched k {[ "age" := VNum 31 ]} v) st) !! k
      = Some (mendy 31))
  ∧ (∀ (msg : WebSocketMessage) (rc : obj) (st : AppState),
      type (body msg) = T_edit → row_changes (body msg) = Some rc →
      (∃ entry : obj,
          users (Reconciler.handleMessage msg st) !! key (body msg) = Some entry
          ∧ ∀ f, rc !! f = None → entry !! f = spread (users st !! key (body msg)) !! f)
      ∧ (∀ k', k' ≠ key (body msg) →
          users (Reconciler.handleMessage msg st) !! k' = users st !! k')).
Proof.
  split.
  - intros st k v Hk.
    rewrite (handleMessage_edit _ {[ "age" := VNum 31 ]}) by reflexivity.
    cbn [key body edit_batched]. rewrite lookup_insert_eq, Hk. reflexivity.
  - intros msg rc st Ht Hrc. rewrite (handleMessage_edit msg rc) by done. split.
    + eexists. split; [apply lookup_insert_eq|].
      intros f Hf. by apply lookup_union_r.
    + intros k' Hk'. by rewrite lookup_insert_ne.
Qed.

Lemma edit_changes_only_named_fields_witness :
  users one_user !! "Mendy" = Some (mendy 30)
  ∧ users (Reconciler.handleMessage (edit_batched "Mendy" {[ "age" := VNum 31 ]} 7) one_user)
      !! "Mendy" = Some (mendy 31).
Proof.
  split; [reflexivity|].
  apply (proj1 edit_changes_only_named_fields). reflexivity.
Defined.

(** C5, as stated, fails: an inbound edit that carries its update as a
    [field]/[value] pair is not merged. *)
Lemma legacy_edit_is_not_merged :
  ¬ (∀ (msg : WebSocketMessage) (st : AppState) (f : string) (x : jsval),
        type (body msg) = T_edit →
        field (body msg) = Some f → value (body msg) = Some x →
        field_of (users (Reconciler.handleMessage msg st)) (key (body msg)) f = Some x).
Proof.
  intros H.
  specialize (H (edit_legacy "Mendy" "age" (VNum 31) 7) one_user "age" (VNum 31)
                eq_refl eq_refl eq_refl).
  vm_compute in H. discriminate H.
Qed.

(** C5, amended. The reader takes the batched form only: an inbound edit
    with [row_changes] has those updates merged into the entry at its
    key, each named field reading its new value afterwards; an inbound
    edit without [row_changes] changes nothing in [handleMessage],
    whatever [field] and [value] it carries, and makes the reader of
    App1.tsx throw with its store untouched. *)
Theorem edit_reader_takes_row_changes_only :
  (∀ (msg : WebSocketMessage) (rc : obj) (st : AppState),
      type (body msg) = T_edit → row_changes (body msg) = Some rc →
      users (Reconciler.handleMessage msg st)
      = <[key (body msg) := rc ∪ spread (users st !! key (body msg))]> (users st)
      ∧ ∀ f x, rc !! f = Some x →
               field_of (users (Reconciler.handleMessage msg st)) (key (body msg)) f = Some x)
  ∧ (∀ (msg : WebSocketMessage) (st : AppState),
      type (body msg) = T_edit → row_changes (body msg) = None →
      users (Reconciler.handleMessage msg st) = users st)
  ∧ (∀ (Store : Type) (setUsers_key : string → option User → Store → Store)
       (setUsers_field : string → string → jsval → Store → option Store)
       (msg : WebSocketMessage) (s : App1.State Store),
      type (body msg) = T_edit → row_changes (body msg) = None →
      App1.onmessage setUsers_key setUsers_field msg s
      = App1.Threw {| App1.users := App1.users s; App1.clientVersion := version msg |}).
Proof.
  split; [|split].
  - intros msg rc st Ht Hrc. split; [by apply handleMessage_edit|].
    intros f x Hf. unfold field_of. rewrite (handleMessage_edit msg rc) by done.
    rewrite lookup_insert_eq. cbn. by apply lookup_union_Some_l.
  - intros msg st Ht Hrc. by apply handleMessage_edit_ignored.
  - intros Store sk sf msg s Ht Hrc. unfold App1.onmessage. by rewrite Ht, Hrc.
Qed.

Lemma edit_reader_takes_row_changes_only_witness :
  (type (body (edit_batched "Mendy" {[ "age" := VNum 31 ]} 7)) = T_edit
   ∧ row_changes (body (edit_batched "Mendy" {[ "age" := VNum 31 ]} 7))
     = Some {[ "age" := VNum 31 ]})
  ∧ field_of
      (users (Reconciler.handleMessage (edit_batched "Mendy" {[ "age" := VNum 31 ]} 7)
                one_user))
      "Mendy" "age" = Some (VNum 31).
Proof.
  split; [split; reflexivity|].
  apply (proj2 (proj1 edit_reader_takes_row_changes_only
                  (edit_batched "Mendy" {[ "age" := VNum 31 ]} 7) _ one_user
                  eq_refl eq_refl)).
  reflexivity.
Defined.

(** ** [send] and the component's intents *)

Section SendFacts.
Import WebSocketManager.

Lemma send_app m now w : app (snd (Manager.send m now w)) = app w.
Proof. unfold Manager.send. by destruct (Manager.open_socket w). Qed.

Lemma send_mgr m now w : mgr (snd (Manager.send m now w)) = mgr w.
Proof. unfold Manager.send. by destruct (Manager.open_socket w). Qed.

Lemma open_socket_lookup w i :
  Manager.open_socket w = Some i →
  socket (mgr w) = Some i
  ∧ ∃ s, sockets (browser w) !! i = Some s ∧ readyState s = OPEN.
Proof.
  unfold Manager.open_socket. intros H.
  destruct (socket (mgr w)) as [j|]; [|done].
  destruct (sockets (browser w) !! j) as [s|] eqn:Hs; [|done].
  destruct (readyState s) eqn:Hr; try done.
  inversion H; subst. eauto.
Qed.

Lemma send_open m now w i s :
  Manager.open_socket w = Some i → sockets (browser w) !! i = Some s →
  sockets (browser (snd (Manager.send m now w))) !! i
  = Some (transmit (JSON_stringify (stamp m (clientVersion (mgr w)) (clientId (mgr w)) now)) s).
Proof.
  intros Ho Hs. unfold Manager.send. rewrite Ho. cbn.
  unfold update_socket. rewrite Hs. cbn.
  apply list_lookup_insert_eq. by eapply lookup_lt_Some.
Qed.

End SendFacts.

Section RoundFacts.
Import Reconciler Rounds.

Lemma spread_Some (o : obj) : spread (Some o) = o.
Proof. reflexivity. Qed.

Lemma union_singleton_insert (f : string) (x : jsval) (e : obj) :
  ({[ f := x ]} : obj) ∪ <[f := x]> e = {[ f := x ]} ∪ e.
Proof.
  apply map_eq. intros g. rewrite !lookup_union.
  destruct (decide (f = g)) as [->|Hne].
  - rewrite lookup_singleton_eq. by destruct (_ !! g), (e !! g).
  - by rewrite lookup_insert_ne.
Qed.

(** One confirmed round ends in the same users mapping with or without
    the optimistic update, when the confirmation is in batched form. *)
Lemma round_absorbs_optimistic (r : Round) (st1 st2 : AppState) :
  users st1 = users st2 →
  users (round true batched r st1) = users (round false batched r st2).
Proof.
  intros Heq. unfold round. destruct r as [[n a e | k f x | k] v cid now]; cbn [intent].
  - rewrite !(handleMessage_add _ (userData n a e)) by reflexivity.
    cbn. unfold addUser_optimistic. by rewrite insert_insert_eq, Heq.
  - rewrite !(handleMessage_edit _ {[ f := x ]}) by reflexivity.
    cbn. unfold editUser_optimistic.
    rewrite lookup_insert_eq, insert_insert_eq, spread_Some.
    by rewrite union_singleton_insert, Heq.
  - rewrite !handleMessage_delete by reflexivity.
    cbn. unfold deleteUser_optimistic. rewrite Heq.
    apply map_eq. intros j. destruct (decide (k = j)) as [->|Hne].
    + by rewrite !lookup_delete_eq.
    + by rewrite !lookup_delete_ne.
Qed.

Lemma play_absorbs_optimistic (rs : list Round) (st1 st2 : AppState) :
  users st1 = users st2 →
  users (play true batched rs st1) = users (play false batched rs st2).
Proof.
  revert st1 st2. induction rs as [|r rs IH]; intros st1 st2 Heq; [done|].
  cbn. apply IH. by apply round_absorbs_optimistic.
Qed.

End RoundFacts.

Section SessionFacts.
Import WebSocketManager Reconciler Rounds.

Lemma call_is_send (optimistically : bool) (i : Intent) (now : string) (w : World) :
  (if optimistically then call else call_without_optimistic) i now w
  = snd (Manager.send (outbound i) now
           (if optimistically then on_app (setUsers (optimistic i)) w else w)).
Proof. destruct optimistically; [|done]. by destruct i. Qed.

Lemma send_when_open (m : Message) (now : string) (w : World) (s : nat) :
  Manager.open_socket w = Some s →
  snd (Manager.send m now w)
  = on_browser
      (update_socket s
         (transmit (JSON_stringify (stamp m (clientVersion (mgr w)) (clientId (mgr w)) now))))
      w.
Proof. intros Ho. unfold Manager.send. by rewrite Ho. Qed.

Lemma sockets_after_transmit (f : Frame) (w : World) (s : nat) (sk : WebSocket) :
  sockets (browser w) !! s = Some sk →
  sockets (browser (on_browser (update_socket s (transmit f)) w)) !! s
  = Some (transmit f sk).
Proof.
  intros Hsk. cbn [browser on_browser]. unfold update_socket. rewrite Hsk.
  cbn [sockets set_sockets]. apply list_lookup_insert_eq. by eapply lookup_lt_Some.
Qed.

Lemma step_message_delivered (s : nat) (msg : WebSocketMessage) (cb : Callback) (w : World) :
  readyState_of s w = Some OPEN →
  onMessageCallback (mgr w) = Some cb →
  step (EvMessage s (JSON_stringify msg)) w
  = on_app (cb msg) (on_mgr (set_clientVersion (version msg)) w).
Proof.
  intros Hr Hcb. cbn [step]. rewrite Hr. unfold Manager.onmessage.
  cbn [JSON_parse mgr on_mgr onMessageCallback set_clientVersion]. by rewrite Hcb.
Qed.

(** A confirmed call on a connected component is one [round] on the
    component state and leaves the connection as it was. *)
Lemma confirmed_call_round (optimistically : bool) (confirm : Message → Message)
  (i : Intent) (now : string) (w : World) (s : nat) :
  Manager.open_socket w = Some s →
  onMessageCallback (mgr w) = Some handleMessage →
  let w' := confirmed_call optimistically confirm (i, now) w in
  app w'
  = round optimistically confirm
      {| intent := i; sent_version := clientVersion (mgr w);
         sent_clientId := clientId (mgr w); sent_time := now |} (app w)
  ∧ Manager.open_socket w' = Some s
  ∧ onMessageCallback (mgr w') = Some handleMessage
  ∧ clientVersion (mgr w') = clientVersion (mgr w)
  ∧ clientId (mgr w') = clientId (mgr w).
Proof.
  intros Ho Hcb w'. unfold w', confirmed_call, confirmation. cbn [fst snd].
  rewrite Ho, call_is_send.
  destruct (open_socket_lookup w s Ho) as (Hsock & sk & Hsk & Hopen).
  set (w0 := if optimistically then on_app (setUsers (optimistic i)) w else w).
  assert (mgr w0 = mgr w ∧ browser w0 = browser w) as [Hm Hb]
    by (unfold w0; by destruct optimistically).
  assert (Manager.open_socket w0 = Some s) as Ho0
    by (unfold Manager.open_socket; by rewrite Hm, Hb).
  rewrite (send_when_open _ _ w0 s Ho0). rewrite Hm.
  set (f := JSON_stringify (stamp (outbound i) (clientVersion (mgr w)) (clientId (mgr w)) now)).
  assert (sockets (browser (on_browser (update_socket s (transmit f)) w0)) !! s
          = Some (transmit f sk)) as Hsent
    by (apply sockets_after_transmit; by rewrite Hb).
  cbn [run foldl]. rewrite (step_message_delivered _ _ handleMessage).
  - repeat split.
    + unfold round, w0. cbn [intent sent_version sent_clientId sent_time].
      by destruct optimistically.
    + unfold Manager.open_socket.
      cbn [mgr browser on_app on_mgr on_browser socket set_clientVersion] in Hsent |- *.
      rewrite Hm, Hsock, Hsent. cbn [transmit readyState]. by rewrite Hopen.
    + cbn. by rewrite Hm.
    + cbn. by rewrite Hm.
  - unfold readyState_of. rewrite Hsent. cbn. by rewrite Hopen.
  - cbn. by rewrite Hm.
Qed.

Lemma session_absorbs_optimistic (cs : list (Intent * string)) (s : nat) :
  ∀ w1 w2 : World,
    users (app w1) = users (app w2) →
    clientVersion (mgr w1) = clientVersion (mgr w2) →
    clientId (mgr w1) = clientId (mgr w2) →
    Manager.open_socket w1 = Some s → Manager.open_socket w2 = Some s →
    onMessageCallback (mgr w1) = Some handleMessage →
    onMessageCallback (mgr w2) = Some handleMessage →
    users (app (session true batched cs w1)) = users (app (session false batched cs w2)).
Proof.
  induction cs as [|[i now] cs IH]; intros w1 w2 Hu Hv Hid Ho1 Ho2 Hc1 Hc2; [done|].
  cbn [session foldl].
  destruct (confirmed_call_round true batched i now w1 s Ho1 Hc1) as (Ha1 & ? & ? & Hv1 & Hid1).
  destruct (confirmed_call_round false batched i now w2 s Ho2 Hc2) as (Ha2 & ? & ? & Hv2 & Hid2).
  apply IH; try done; [|congruence|congruence].
  rewrite Ha1, Ha2, Hv, Hid. by apply round_absorbs_optimistic.
Qed.

End SessionFacts.

(** C1, as stated, fails: when the transport echoes an edit exactly as
    [editUser] sent it, the mapping after the round depends on whether the
    optimistic update was made: in the component state alone, and on the
    connected component with its real [send] and message event. *)
Lemma verbatim_edit_echo_depends_on_optimistic_step :
  users (Rounds.play true Rounds.verbatim [edit_round] one_user)
  ≠ users (Rounds.play false Rounds.verbatim [edit_round] one_user)
  ∧ field_of
      (users (app (Rounds.session true Rounds.verbatim
                     [(Rounds.IAdd "Mendy" 30 "m@x.com", "t0");
                      (Rounds.IEdit "Mendy" "age" (VNum 31), "t1")] connected_world)))
      "Mendy" "age" = Some (VNum 31)
  ∧ field_of
      (users (app (Rounds.session false Rounds.verbatim
                     [(Rounds.IAdd "Mendy" 30 "m@x.com", "t0");
                      (Rounds.IEdit "Mendy" "age" (VNum 31), "t1")] connected_world)))
      "Mendy" "age" = Some (VNum 30).
Proof.
  split; [|split; vm_compute; reflexivity].
  intros H.
  apply (f_equal (λ us, field_of us "Mendy" "age")) in H.
  vm_compute in H. discriminate H.
Qed.

(** C1, amended. For every sequence of add, edit and delete calls on a
    connected component, each followed by its own confirmation -- the
    sent message as it is for an add or a delete, and for an edit the sent
    message with its field/value pair carried as
    [row_changes = {field: value}] -- the users mapping at the end is the
    same whether or not the optimistic update was made before each
    confirmation.  The same holds of the component state alone, under any
    stamps. *)
Theorem confirmed_rounds_converge :
  (∀ (cs : list (Rounds.Intent * string)) (w : World) (s : nat),
      Manager.open_socket w = Some s →
      WebSocketManager.onMessageCallback (mgr w) = Some Reconciler.handleMessage →
      users (app (Rounds.session true Rounds.batched cs w))
      = users (app (Rounds.session false Rounds.batched cs w)))
  ∧ (∀ (rs : list Rounds.Round) (st : AppState),
      users (Rounds.play true Rounds.batched rs st)
      = users (Rounds.play false Rounds.batched rs st))
  ∧ (∀ n a e, Rounds.batched (Rounds.outbound (Rounds.IAdd n a e))
              = Rounds.verbatim (Rounds.outbound (Rounds.IAdd n a e)))
  ∧ (∀ k, Rounds.batched (Rounds.outbound (Rounds.IDelete k))
          = Rounds.verbatim (Rounds.outbound (Rounds.IDelete k)))
  ∧ (∀ k f x, row_changes (Rounds.batched (Rounds.outbound (Rounds.IEdit k f x)))
              = Some {[ f := x ]}).
Proof.
  split; [|split; [|repeat split]].
  - intros cs w s Ho Hcb. by apply (session_absorbs_optimistic cs s).
  - intros rs st. by apply play_absorbs_optimistic.
Qed.

Lemma confirmed_rounds_converge_witness :
  (Manager.open_socket connected_world = Some 0
   ∧ WebSocketManager.onMessageCallback (mgr connected_world) = Some Reconciler.handleMessage)
  ∧ users (app (Rounds.session true Rounds.batched
                  [(Rounds.IAdd "Mendy" 30 "m@x.com", "t0");
                   (Rounds.IEdit "Mendy" "age" (VNum 31), "t1")] connected_world))
    = users (app (Rounds.session false Rounds.batched
                    [(Rounds.IAdd "Mendy" 30 "m@x.com", "t0");
                     (Rounds.IEdit "Mendy" "age" (VNum 31), "t1")] connected_world)).
Proof.
  split; [split; reflexivity|].
  apply (proj1 confirmed_rounds_converge _ connected_world 0); reflexivity.
Defined.

(** ** [trim] *)

(** *** Strings as UTF-8 bytes *)

Section Utf8Facts.

Lemma split_64 (c : N) : (c = 64 * (c / 64) + c mod 64 ∧ c mod 64 < 64)%N.
Proof. split; [apply N.div_mod; done|by apply N.mod_upper_bound]. Qed.

Lemma first_point_utf8 (c : N) (rest : list ascii) :
  is_code_point c → first_point (utf8 c ++ rest) = Some (c, rest).
Proof.
  unfold is_code_point, utf8. intros Hc.
  destruct (split_64 c) as [E0 B0].
  destruct (split_64 (c / 64)) as [E1 B1].
  destruct (split_64 (c / 64 / 64)) as [E2 B2].
  assert (c / 4096 = c / 64 / 64)%N as Q2 by by rewrite N.Div0.div_div.
  assert (c / 262144 = c / 64 / 64 / 64)%N as Q3 by by rewrite !N.Div0.div_div.
  rewrite Q2, Q3.
  set (q1 := (c / 64)%N) in *. set (q2 := (q1 / 64)%N) in *.
  set (q3 := (q2 / 64)%N) in *. set (r0 := (c mod 64)%N) in *.
  set (r1 := (q1 mod 64)%N) in *. set (r2 := (q2 mod 64)%N) in *.
  clearbody r2 r1 r0 q3 q2 q1.
  destruct (N.ltb_spec c 128); [|destruct (N.ltb_spec c 2048); [|destruct (N.ltb_spec c 65536)]];
    cbn [List.app first_point]; rewrite !N_ascii_embedding by lia;
    repeat (match goal with
            | |- context [(?a <? ?b)%N] => destruct (N.ltb_spec a b); try lia
            end);
    do 2 f_equal; lia.
Qed.

Lemma utf8_points_inj (a b : list N) :
  Forall is_code_point a → Forall is_code_point b →
  concat (map utf8 a) = concat (map utf8 b) → a = b.
Proof.
  intros Ha. revert b. induction Ha as [|c a Hc Ha IH]; intros b Hb Heq.
  - destruct Hb as [|d b Hd Hb]; [done|]. cbn [map concat] in Heq.
    apply (f_equal first_point) in Heq. by rewrite first_point_utf8 in Heq.
  - destruct Hb as [|d b Hd Hb]; cbn [map concat] in Heq;
      apply (f_equal first_point) in Heq; rewrite !first_point_utf8 in Heq by done;
      [done|].
    injection Heq as -> Heq. f_equal. by apply IH.
Qed.

(** Different sequences of code points are different strings. *)
Lemma of_points_inj (a b : list N) :
  Forall is_code_point a → Forall is_code_point b →
  of_points a = of_points b → a = b.
Proof.
  intros Ha Hb Heq. apply utf8_points_inj; [done|done|].
  unfold of_points in Heq. apply (f_equal list_ascii_of_string) in Heq.
  by rewrite !list_ascii_of_string_of_list_ascii in Heq.
Qed.

End Utf8Facts.

(** *** Stripping *)

Section StripFacts.

Lemma after_prefix_Some (w l r : list ascii) :
  after_prefix w l = Some r ↔ l = (w ++ r)%list.
Proof.
  revert l. induction w as [|a w IH]; intros l; cbn.
  - split; congruence.
  - destruct l as [|b l]; [split; discriminate|].
    destruct (Ascii.eqb_spec a b) as [->|Hne].
    + rewrite IH. split; congruence.
    + split; [discriminate|]. intros [=]. congruence.
Qed.

Lemma strip_one_Some (table : list (list ascii)) (l r : list ascii) :
  strip_one table l = Some r → ∃ w, w ∈ table ∧ l = (w ++ r)%list.
Proof.
  induction table as [|w table IH]; cbn; [discriminate|].
  destruct (after_prefix w l) as [r'|] eqn:Hw.
  - intros [= ->]. exists w. split; [left|by apply after_prefix_Some].
  - intros H. destruct (IH H) as (w' & Hin & Heq). exists w'. split; [by right|done].
Qed.

Lemma strip_one_None (table : list (list ascii)) (l : list ascii) :
  strip_one table l = None → ∀ w r, w ∈ table → l ≠ (w ++ r)%list.
Proof.
  induction table as [|w table IH]; cbn; intros H w' r Hin.
  - by apply elem_of_nil in Hin.
  - destruct (after_prefix w l) as [r'|] eqn:Hw; [discriminate|].
    apply elem_of_cons in Hin as [->|Hin]; [|by apply IH].
    intros Heq. apply after_prefix_Some in Heq. congruence.
Qed.

Lemma strips_false (table : list (list ascii)) (l : list ascii) :
  strips table l = false ↔ strip_one table l = None.
Proof. unfold strips. destruct (strip_one table l); split; congruence. Qed.

Lemma strips_app (table : list (list ascii)) (a b : list ascii) :
  strips table (a ++ b) = false → strips table a = false.
Proof.
  rewrite !strips_false. intros H.
  destruct (strip_one table a) as [r|] eqn:Ha; [|done].
  apply strip_one_Some in Ha as (w & Hin & ->).
  exfalso. apply (strip_one_None _ _ H w (r ++ b)%list Hin). by rewrite app_assoc.
Qed.

Lemma strip_suffix (table : list (list ascii)) (fuel : nat) (l : list ascii) :
  ∃ p, l = (p ++ strip table fuel l)%list.
Proof.
  revert l. induction fuel as [|fuel IH]; intros l; cbn; [by exists []|].
  destruct (strip_one table l) as [r|] eqn:Hr; [|by exists []].
  apply strip_one_Some in Hr as (w & _ & ->).
  destruct (IH r) as [p Hp]. exists (w ++ p)%list. by rewrite <- app_assoc, <- Hp.
Qed.

Lemma strip_length (table : list (list ascii)) (fuel : nat) (l : list ascii) :
  length (strip table fuel l) ≤ length l.
Proof.
  destruct (strip_suffix table fuel l) as [p Hp].
  rewrite Hp at 2. rewrite length_app. lia.
Qed.

Lemma strip_same_length (table : list (list ascii)) (fuel : nat) (l : list ascii) :
  length (strip table fuel l) = length l → strip table fuel l = l.
Proof.
  destruct (strip_suffix table fuel l) as [p Hp]. intros Hlen.
  rewrite Hp in Hlen at 2. rewrite length_app in Hlen.
  destruct p; [done|cbn in Hlen; lia].
Qed.

Context (table : list (list ascii)) (Hne : Forall (λ w, w ≠ []) table).

Lemma strip_one_shorter (l r : list ascii) :
  strip_one table l = Some r → length r < length l.
Proof using Hne.
  intros H. apply strip_one_Some in H as (w & Hin & ->).
  rewrite Forall_forall in Hne. specialize (Hne w Hin).
  rewrite length_app. destruct w; [done|cbn; lia].
Qed.

Lemma strip_clean (fuel : nat) (l : list ascii) :
  length l ≤ fuel → strips table (strip table fuel l) = false.
Proof using Hne.
  revert l. induction fuel as [|fuel IH]; intros l Hl; cbn.
  - destruct l; [|cbn in Hl; lia]. apply strips_false.
    destruct (strip_one table []) as [r|] eqn:Hr; [|done].
    apply strip_one_shorter in Hr. cbn in Hr. lia.
  - destruct (strip_one table l) as [r|] eqn:Hr; [|by apply strips_false].
    apply IH. apply strip_one_shorter in Hr. lia.
Qed.

Lemma strip_fixed (fuel : nat) (l : list ascii) :
  length l ≤ fuel → (strip table fuel l = l ↔ strips table l = false).
Proof using Hne.
  intros Hl. split.
  - intros H. rewrite <- H. by apply strip_clean.
  - rewrite strips_false. intros H. destruct fuel; cbn; [done|by rewrite H].
Qed.

End StripFacts.

Section TrimFacts.

Lemma whitespace_encodings_nonempty : Forall (λ w, w ≠ []) whitespace_encodings.
Proof. repeat constructor; discriminate. Qed.

Lemma reversed_encodings_nonempty :
  Forall (λ w, w ≠ []) (map (@rev ascii) whitespace_encodings).
Proof. repeat constructor; discriminate. Qed.

Lemma trimStart_bytes_fixed (l : list ascii) :
  trimStart_bytes l = l ↔ strips whitespace_encodings l = false.
Proof. apply strip_fixed; [apply whitespace_encodings_nonempty|done]. Qed.

Lemma trimEnd_bytes_fixed (l : list ascii) :
  trimEnd_bytes l = l ↔ strips (map (@rev ascii) whitespace_encodings) (rev l) = false.
Proof.
  unfold trimEnd_bytes.
  rewrite <- (strip_fixed _ reversed_encodings_nonempty (length l) (rev l))
    by (rewrite length_rev; lia).
  split; intros H.
  - apply (f_equal (@rev ascii)) in H. by rewrite rev_involutive in H.
  - by rewrite H, rev_involutive.
Qed.

Lemma trimStart_bytes_length (l : list ascii) : length (trimStart_bytes l) ≤ length l.
Proof. apply strip_length. Qed.

Lemma trimEnd_bytes_length (l : list ascii) : length (trimEnd_bytes l) ≤ length l.
Proof.
  unfold trimEnd_bytes. rewrite length_rev.
  etransitivity; [apply strip_length|]. by rewrite length_rev.
Qed.

Lemma trim_bytes (s : string) :
  list_ascii_of_string (trim s)
  = trimEnd_bytes (trimStart_bytes (list_ascii_of_string s)).
Proof.
  unfold trim, trimEnd, trimStart. by rewrite !list_ascii_of_string_of_list_ascii.
Qed.

Lemma bytes_inj (s t : string) :
  list_ascii_of_string s = list_ascii_of_string t → s = t.
Proof.
  intros H. rewrite <- (string_of_list_ascii_of_string s), H.
  apply string_of_list_ascii_of_string.
Qed.

(** [trim] gives the string back exactly when it neither starts nor
    ends with whitespace. *)
Lemma trim_fixed (s : string) :
  trim s = s
  ↔ starts_with_whitespace s = false ∧ ends_with_whitespace s = false.
Proof.
  unfold starts_with_whitespace, ends_with_whitespace.
  rewrite <- trimStart_bytes_fixed, <- trimEnd_bytes_fixed.
  set (l := list_ascii_of_string s). split.
  - intros H. apply (f_equal list_ascii_of_string) in H.
    rewrite trim_bytes in H. fold l in H.
    assert (trimStart_bytes l = l) as Hs.
    { apply strip_same_length.
      pose proof (trimEnd_bytes_length (trimStart_bytes l)) as H1.
      pose proof (trimStart_bytes_length l) as H2.
      rewrite H in H1. unfold trimStart_bytes in *. lia. }
    split; [done|]. by rewrite Hs in H.
  - intros [Hs He]. apply bytes_inj. rewrite trim_bytes. fold l. by rewrite Hs.
Qed.

Lemma trim_clean (s : string) :
  starts_with_whitespace (trim s) = false ∧ ends_with_whitespace (trim s) = false.
Proof.
  unfold starts_with_whitespace, ends_with_whitespace. rewrite trim_bytes.
  set (x := trimStart_bytes (list_ascii_of_string s)).
  assert (strips whitespace_encodings x = false) as Hx.
  { apply strip_clean; [apply whitespace_encodings_nonempty|done]. }
  unfold trimEnd_bytes. split.
  - destruct (strip_suffix (map (@rev ascii) whitespace_encodings) (length x) (rev x))
      as [p Hp].
    apply (strips_app _ _ (rev p)). rewrite <- rev_app_distr, <- Hp.
    by rewrite rev_involutive.
  - rewrite rev_involutive. apply strip_clean; [apply reversed_encodings_nonempty|].
    rewrite length_rev; lia.
Qed.

End TrimFacts.

(** *** Agreement with [trim] on code points *)

Section Agreement.

Lemma bytes_eqb_eq (a b : list ascii) : bytes_eqb a b = true → a = b.
Proof.
  revert b. induction a as [|x a IH]; intros [|y b]; cbn; try done.
  destruct (Ascii.eqb_spec x y) as [->|]; [|done]. intros H. f_equal. by apply IH.
Qed.

Lemma comparable_app (w u r r' : list ascii) :
  (w ++ r' = u ++ r)%list → comparable w u = true.
Proof.
  intros H. apply app_eq_app in H as [l [[-> _]|[-> _]]]; unfold comparable.
  - assert (after_prefix u (u ++ l) = Some l) as -> by by apply after_prefix_Some.
    by destruct (after_prefix _ _).
  - assert (after_prefix w (w ++ l) = Some l) as -> by by apply after_prefix_Some.
    done.
Qed.

Lemma aligned_below_spec (n : N) :
  fst (aligned_below n) = n
  ∧ (snd (aligned_below n) = true →
     ∀ c, (c < n)%N → aligned whitespace_encodings c = true).
Proof.
  unfold aligned_below. cbv zeta.
  induction n as [|n [IH1 IH2]] using N.peano_ind.
  - split; [done|]. intros _ c Hc. lia.
  - rewrite N.iter_succ.
    destruct (N.iter n _ _) as [i b]. cbn in *. subst i. split; [done|].
    intros [Hb Hn]%andb_true_iff c Hc.
    destruct (decide (c = n)) as [->|]; [done|]. apply IH2; [done|lia].
Qed.

(** Checked on the sixty-five thousand code points of the basic plane. *)
Lemma aligned_plane : snd (aligned_below 65536) = true.
Proof. vm_compute. reflexivity. Qed.

Lemma supplementary_bytes (c : N) :
  (65536 ≤ c < 1114112)%N →
  ∃ b0 b1 b2 b3,
    utf8 c = [b0; b1; b2; b3]
    ∧ (240 ≤ N_of_ascii b0)%N
    ∧ is_continuation b1 ∧ is_continuation b2 ∧ is_continuation b3.
Proof.
  intros Hc. unfold utf8.
  destruct (N.ltb_spec c 128); [lia|].
  destruct (N.ltb_spec c 2048); [lia|].
  destruct (N.ltb_spec c 65536); [lia|].
  eexists _, _, _, _. split; [reflexivity|]. unfold is_continuation.
  assert (c / 262144 < 16)%N by (apply N.Div0.div_lt_upper_bound; lia).
  pose proof (N.mod_upper_bound (c / 4096) 64 ltac:(done)).
  pose proof (N.mod_upper_bound (c / 64) 64 ltac:(done)).
  pose proof (N.mod_upper_bound c 64 ltac:(done)).
  rewrite !N_ascii_embedding by lia.
  generalize dependent (c / 262144)%N. generalize dependent ((c / 4096) mod 64)%N.
  generalize dependent ((c / 64) mod 64)%N. generalize dependent (c mod 64)%N.
  intros. lia.
Qed.

Lemma simple_apart (w : list ascii) (b0 b1 b2 b3 : ascii) :
  simple w = true →
  (240 ≤ N_of_ascii b0)%N →
  is_continuation b1 → is_continuation b2 → is_continuation b3 →
  comparable w [b0; b1; b2; b3] = false
  ∧ comparable (rev w) (rev [b0; b1; b2; b3]) = false.
Proof.
  unfold is_continuation. intros Hw H0 H1 H2 H3.
  destruct w as [|x rest]; [done|]. cbn [simple] in Hw.
  apply andb_true_iff in Hw as [Hlen Hx].
  assert ((N_of_ascii x < 128)%N ∨ (192 ≤ N_of_ascii x < 240)%N) as Hx'.
  { apply orb_true_iff in Hx as [Hx|[Hx1 Hx2]%andb_true_iff].
    - left. by apply N.ltb_lt.
    - right. split; [by apply N.leb_le|by apply N.ltb_lt]. }
  clear Hx.
  assert (x ≠ b0 ∧ x ≠ b1 ∧ x ≠ b2 ∧ x ≠ b3) as (N0 & N1 & N2 & N3).
  { repeat split; intros ->; lia. }
  destruct rest as [|y [|z [|? ?]]]; [| | |done]; clear Hlen Hx' H0 H1 H2 H3;
    unfold comparable; cbn [rev List.app after_prefix];
    repeat (match goal with
            | |- context [Ascii.eqb ?a ?b] =>
                destruct (Ascii.eqb_spec a b); try congruence; subst;
                cbn [after_prefix]
            end); try done.
Qed.

(** No whitespace encoding overlaps the start or the end of another code
    point's encoding. *)
Lemma aligned_every (c : N) (w : list ascii) :
  is_code_point c → w ∈ whitespace_encodings →
  comparable w (utf8 c) = true ∨ comparable (rev w) (rev (utf8 c)) = true →
  w = utf8 c ∧ is_whitespace c = true.
Proof.
  unfold is_code_point. intros Hc Hw Hcmp.
  destruct (N.lt_ge_cases c 65536) as [Hlow|Hhigh].
  - pose proof (proj2 (aligned_below_spec 65536) aligned_plane c Hlow) as Ha.
    unfold aligned in Ha. rewrite forallb_forall in Ha.
    apply list_elem_of_In in Hw. specialize (Ha w Hw).
    cbv beta zeta in Ha.
    assert (bytes_eqb w (utf8 c) && is_whitespace c = true) as Hboth.
    { destruct Hcmp as [Hcmp|Hcmp].
      - by rewrite Hcmp in Ha.
      - destruct (comparable w (utf8 c)); [done|by rewrite Hcmp in Ha]. }
    apply andb_true_iff in Hboth as [He Hs].
    split; [by apply bytes_eqb_eq|done].
  - destruct (supplementary_bytes c) as (b0 & b1 & b2 & b3 & Hu & H0 & H1 & H2 & H3);
      [lia|].
    assert (simple w = true) as Hs.
    { assert (forallb simple whitespace_encodings = true) as Hall by reflexivity.
      rewrite forallb_forall in Hall. apply Hall. by apply list_elem_of_In. }
    destruct (simple_apart w b0 b1 b2 b3 Hs H0 H1 H2 H3) as [Hp Hq].
    rewrite Hu in Hcmp. destruct Hcmp; congruence.
Qed.

Lemma is_whitespace_encoding (c : N) :
  is_whitespace c = true → utf8 c ∈ whitespace_encodings.
Proof.
  unfold is_whitespace. rewrite existsb_exists. intros (x & Hin & ->%N.eqb_eq).
  change whitespace_encodings with (map utf8 whitespace_points).
  apply list_elem_of_In, in_map, Hin.
Qed.

Section Generic.

Context (e : N → list ascii) (table : list (list ascii)).
Context (Hne : Forall (λ w, w ≠ []) table).
Context (Hin : ∀ c, is_whitespace c = true → e c ∈ table).
Context (Haligned : ∀ c w r r',
            is_code_point c → w ∈ table → (w ++ r' = e c ++ r)%list →
            w = e c ∧ is_whitespace c = true).

Lemma strip_one_nil : strip_one table [] = None.
Proof using Hne.
  destruct (strip_one table []) as [r|] eqn:Hr; [|done].
  apply (strip_one_shorter _ Hne) in Hr. cbn in Hr. lia.
Qed.

Lemma strip_one_point (c : N) (rest : list ascii) :
  is_code_point c →
  strip_one table (e c ++ rest) = if is_whitespace c then Some rest else None.
Proof using Hin Haligned.
  intros Hc. destruct (strip_one table (e c ++ rest)) as [r|] eqn:Hr.
  - apply strip_one_Some in Hr as (w & Hw & Heq).
    destruct (Haligned c w rest r Hc Hw (eq_sym Heq)) as [-> ->].
    apply app_inv_head in Heq. by subst r.
  - destruct (is_whitespace c) eqn:Hws; [|done]. exfalso.
    by apply (strip_one_None _ _ Hr (e c) rest (Hin c Hws)).
Qed.

Lemma strips_concat (cps : list N) :
  Forall is_code_point cps →
  strips table (concat (map e cps))
  = match cps with c :: _ => is_whitespace c | [] => false end.
Proof using All.
  unfold strips. intros Hcps. destruct Hcps as [|c cps Hc Hcps]; cbn [map concat].
  - by rewrite strip_one_nil.
  - rewrite strip_one_point by done. by destruct (is_whitespace c).
Qed.

Lemma strip_concat (cps : list N) (fuel : nat) :
  Forall is_code_point cps →
  length (concat (map e cps)) ≤ fuel →
  strip table fuel (concat (map e cps))
  = concat (map e (drop_while is_whitespace cps)).
Proof using All.
  intros Hcps. revert fuel.
  induction Hcps as [|c cps Hc Hcps IH]; intros fuel Hlen; cbn [map concat drop_while].
  - destruct fuel; cbn [strip]; [done|]. by rewrite strip_one_nil.
  - cbn [map concat] in Hlen.
    pose proof (strip_one_point c (concat (map e cps)) Hc) as Hone.
    destruct (is_whitespace c) eqn:Hws.
    + pose proof (strip_one_shorter _ Hne _ _ Hone) as Hshort.
      destruct fuel; [lia|]. cbn [strip]. rewrite Hone. apply IH. lia.
    + destruct fuel; cbn [strip]; [done|by rewrite Hone].
Qed.

End Generic.

Lemma Forall_drop_while {A} (P : A → Prop) (p : A → bool) (l : list A) :
  Forall P l → Forall P (drop_while p l).
Proof.
  induction 1 as [|x l Hx Hl IH]; cbn; [constructor|].
  destruct (p x); [done|by constructor].
Qed.

Lemma rev_concat_map (e : N → list ascii) (cps : list N) :
  rev (concat (map e cps)) = concat (map (λ c, rev (e c)) (rev cps)).
Proof.
  induction cps as [|c cps IH]; [done|]. cbn [map concat rev].
  rewrite rev_app_distr, IH, map_app, concat_app. cbn. by rewrite app_nil_r.
Qed.

(** A whitespace byte form at the start of a string is its first
    character. *)
Lemma forward_aligned (c : N) (w r r' : list ascii) :
  is_code_point c → w ∈ whitespace_encodings →
  (w ++ r' = utf8 c ++ r)%list →
  w = utf8 c ∧ is_whitespace c = true.
Proof.
  intros Hc Hw Heq. apply aligned_every; [done|done|].
  left. by apply (comparable_app _ _ r r').
Qed.

(** A whitespace byte form at the end of a string is its last
    character. *)
Lemma backward_aligned (c : N) (w r r' : list ascii) :
  is_code_point c → w ∈ map (@rev ascii) whitespace_encodings →
  (w ++ r' = rev (utf8 c) ++ r)%list →
  w = rev (utf8 c) ∧ is_whitespace c = true.
Proof.
  intros Hc Hw Heq.
  apply list_elem_of_In, in_map_iff in Hw as (w' & <- & Hw').
  apply list_elem_of_In in Hw'.
  destruct (aligned_every c w' Hc Hw') as [-> Hws]; [|done].
  right. by apply (comparable_app _ _ r r').
Qed.

Lemma is_whitespace_ending (c : N) :
  is_whitespace c = true → rev (utf8 c) ∈ map (@rev ascii) whitespace_encodings.
Proof.
  intros Hc. apply list_elem_of_In, in_map, list_elem_of_In.
  by apply is_whitespace_encoding.
Qed.

(** A string starts with whitespace when its first code point is one
    that [trim] strips. *)
Lemma starts_with_whitespace_points (cps : list N) :
  Forall is_code_point cps →
  starts_with_whitespace (of_points cps)
  = match cps with c :: _ => is_whitespace c | [] => false end.
Proof.
  intros Hcps. unfold starts_with_whitespace, of_points.
  rewrite list_ascii_of_string_of_list_ascii.
  by apply (strips_concat utf8 whitespace_encodings whitespace_encodings_nonempty
              is_whitespace_encoding forward_aligned).
Qed.

(** It ends with whitespace when its last code point is one. *)
Lemma ends_with_whitespace_points (cps : list N) :
  Forall is_code_point cps →
  ends_with_whitespace (of_points cps)
  = match rev cps with c :: _ => is_whitespace c | [] => false end.
Proof.
  intros Hcps. unfold ends_with_whitespace, of_points.
  rewrite list_ascii_of_string_of_list_ascii, rev_concat_map.
  apply (strips_concat (λ c, rev (utf8 c)) _ reversed_encodings_nonempty
           is_whitespace_ending backward_aligned).
  by apply Forall_rev.
Qed.

Lemma trimStart_bytes_points (cps : list N) :
  Forall is_code_point cps →
  trimStart_bytes (concat (map utf8 cps))
  = concat (map utf8 (drop_while is_whitespace cps)).
Proof.
  intros Hcps. unfold trimStart_bytes.
  by apply (strip_concat utf8 whitespace_encodings whitespace_encodings_nonempty
              is_whitespace_encoding forward_aligned).
Qed.

Lemma trimEnd_bytes_points (cps : list N) :
  Forall is_code_point cps →
  trimEnd_bytes (concat (map utf8 cps))
  = concat (map utf8 (rev (drop_while is_whitespace (rev cps)))).
Proof.
  intros Hcps. unfold trimEnd_bytes. rewrite rev_concat_map.
  rewrite (strip_concat (λ c, rev (utf8 c)) _ reversed_encodings_nonempty
             is_whitespace_ending backward_aligned).
  - rewrite rev_concat_map. f_equal. apply map_ext. intros c. apply rev_involutive.
  - by apply Forall_rev.
  - rewrite <- rev_concat_map, length_rev. lia.
Qed.

(** [trim] on the bytes is [trim] on the code points: whatever the
    string, what is stripped are its leading and trailing whitespace
    characters, any of the twenty-five. *)
Lemma trim_of_points (cps : list N) :
  Forall is_code_point cps → trim (of_points cps) = of_points (trim_points cps).
Proof.
  intros Hcps. apply bytes_inj. rewrite trim_bytes. unfold of_points.
  rewrite !list_ascii_of_string_of_list_ascii.
  rewrite (trimStart_bytes_points cps Hcps).
  apply trimEnd_bytes_points. by apply Forall_drop_while.
Qed.

End Agreement.



(** C9. [addUser(name, age, email)] stores the entity under the name as
    given, while the entity's own [name] and [email] are the trimmed
    texts; the add message it hands to [send], and the frame transmitted
    when the socket is open, carry the untrimmed name as [key] and the
    trimmed entity as [data].  So the stored entry's [name] equals its key
    exactly when the name neither starts nor ends with whitespace. *)
Theorem addUser_keys_by_untrimmed_name
  (n : string) (a : Z) (e now : string) (w : World) :
  let w' := App.addUser n a e now w in
  let entity := {| name := trim n; age := a; email := trim e |} in
  users (app w') !! n = Some (Reconciler.with_sync entity)
  ∧ Reconciler.with_sync entity !! "name" = Some (VStr (trim n))
  ∧ Reconciler.with_sync entity !! "email" = Some (VStr (trim e))
  ∧ key (Reconciler.addUser_message n a e) = n
  ∧ data (Reconciler.addUser_message n a e) = Some entity
  ∧ (∀ i s, Manager.open_socket w = Some i → sockets (browser w) !! i = Some s →
       sockets (browser w') !! i
       = Some (transmit
                 (JSON_stringify
                    (stamp (Reconciler.addUser_message n a e)
                       (WebSocketManager.clientVersion (mgr w))
                       (WebSocketManager.clientId (mgr w)) now)) s))
  ∧ (field_of (users (app w')) n "name" = Some (VStr n)
     ↔ starts_with_whitespace n = false ∧ ends_with_whitespace n = false).
Proof.
  intros w' entity.
  assert (users (app w') !! n = Some (Reconciler.with_sync entity)) as Hentry.
  { unfold w', App.addUser. rewrite send_app. cbn.
    unfold Reconciler.addUser_optimistic. apply lookup_insert_eq. }
  repeat split; try done.
  - intros i s Ho Hs. unfold w', App.addUser.
    by apply (send_open _ now (on_app (setUsers (Reconciler.addUser_optimistic n a e)) w)).
  - unfold field_of in H. rewrite Hentry in H.
    change (Some (VStr (trim n)) = Some (VStr n)) in H.
    assert (trim n = n) as Ht by congruence.
    by apply trim_fixed in Ht as [? _].
  - unfold field_of in H. rewrite Hentry in H.
    change (Some (VStr (trim n)) = Some (VStr n)) in H.
    assert (trim n = n) as Ht by congruence.
    by apply trim_fixed in Ht as [_ ?].
  - intros [Hs He]. unfold field_of. rewrite Hentry.
    assert (trim n = n) as Ht by (by apply trim_fixed).
    change (Some (VStr (trim n)) = Some (VStr n)). by rewrite Ht.
Qed.

Lemma addUser_keys_by_untrimmed_name_witness :
  Manager.open_socket connected_world = Some 0
  ∧ (field_of (users (app (App.addUser " Mendy" 30 "m@x.com " "t0" connected_world)))
       " Mendy" "name" = Some (VStr "Mendy")
     ∧ starts_with_whitespace " Mendy" = true)
  ∧ (field_of (users (app (App.addUser wide_mendy 30 "m@x.com" "t0" connected_world)))
       wide_mendy "name" = Some (VStr "Mendy")
     ∧ starts_with_whitespace wide_mendy = true
     ∧ ends_with_whitespace wide_mendy = true).
Proof.
  split; [reflexivity|]. split.
  - split; [|reflexivity].
    pose proof (addUser_keys_by_untrimmed_name " Mendy" 30 "m@x.com " "t0" connected_world)
      as [Hentry _].
    unfold field_of. rewrite Hentry. reflexivity.
  - split; [|split; reflexivity].
    pose proof (addUser_keys_by_untrimmed_name wide_mendy 30 "m@x.com" "t0" connected_world)
      as [Hentry _].
    unfold field_of. rewrite Hentry. reflexivity.
Defined.

(** ** Connection manager *)

Section ManagerFacts.
Import WebSocketManager.

Lemma attemptReconnect_exhausted w :
  maxReconnectAttempts (mgr w) ≤ reconnectAttempts (mgr w) →
  Manager.attemptReconnect w = w.
Proof. intros H. unfold Manager.attemptReconnect. case_decide; [lia|done]. Qed.

Lemma attemptReconnect_schedules w :
  reconnectAttempts (mgr w) < maxReconnectAttempts (mgr w) →
  Manager.attemptReconnect w
  = on_browser (setTimeout (Manager.base_delay * Z.of_nat (S (reconnectAttempts (mgr w))))%Z)
      (on_mgr (set_reconnectAttempts (S (reconnectAttempts (mgr w)))) w).
Proof. intros H. unfold Manager.attemptReconnect. case_decide; [done|lia]. Qed.

(** What [attemptReconnect] never touches. *)
Lemma attemptReconnect_frame w :
  let w' := Manager.attemptReconnect w in
  clientVersion (mgr w') = clientVersion (mgr w)
  ∧ onMessageCallback (mgr w') = onMessageCallback (mgr w)
  ∧ socket (mgr w') = socket (mgr w)
  ∧ maxReconnectAttempts (mgr w') = maxReconnectAttempts (mgr w)
  ∧ sockets (browser w') = sockets (browser w)
  ∧ app w' = app w.
Proof. unfold Manager.attemptReconnect. by case_decide. Qed.

Lemma connect_clientVersion cb w :
  clientVersion (mgr (Manager.connect cb w)) = clientVersion (mgr w).
Proof.
  unfold Manager.connect. cbn.
  destruct (accepts_url (browser w) _); [done|].
  by rewrite (proj1 (attemptReconnect_frame _)).
Qed.

Lemma step_clientVersion ev w :
  clientVersion (mgr (step ev w)) ≠ clientVersion (mgr w) →
  ∃ s msg, ev = EvMessage s (JSON_stringify msg)
           ∧ readyState_of s w = Some OPEN
           ∧ clientVersion (mgr (step ev w)) = version msg.
Proof.
  destruct ev as [s | s e | s | s | t | cb | m now |]; cbn [step].
  - destruct (readyState_of s w) as [[]|]; done.
  - destruct (readyState_of s w) as [[]|] eqn:Hr; try done.
    destruct e as [msg|raw]; [|done]. intros _. exists s, msg.
    repeat split; try done. cbn.
    by destruct (onMessageCallback (mgr w)).
  - destruct (readyState_of s w) as [[]|]; done.
  - destruct (readyState_of s w) as [[]|]; try done;
      unfold Manager.onclose; by rewrite (proj1 (attemptReconnect_frame _)).
  - destruct (timers (browser w) !! t); [|done].
    unfold Manager.ontimeout. cbn.
    destruct (onMessageCallback (mgr w)); [|done].
    by rewrite connect_clientVersion.
  - by rewrite connect_clientVersion.
  - by rewrite send_mgr.
  - unfold Manager.disconnect. by destruct (socket (mgr w)).
Qed.

Lemma step_message_open s msg w :
  readyState_of s w = Some OPEN →
  clientVersion (mgr (step (EvMessage s (JSON_stringify msg)) w)) = version msg
  ∧ readyState_of s (step (EvMessage s (JSON_stringify msg)) w) = Some OPEN.
Proof.
  intros Hr. cbn [step]. rewrite Hr. cbn.
  by destruct (onMessageCallback (mgr w)).
Qed.

End ManagerFacts.

(** C6, as stated, fails: after an inbound message at version 5, one at
    version 3 brings [clientVersion] down from 5 to 3. *)
Lemma clientVersion_can_decrease :
  WebSocketManager.clientVersion
    (mgr (run [EvMessage 0 (add_frame "Mendy" 5)] connected_world)) = 5%Z
  ∧ WebSocketManager.clientVersion
      (mgr (run [EvMessage 0 (add_frame "Mendy" 5); EvMessage 0 (add_frame "Mendy" 3)]
              connected_world)) = 3%Z.
Proof. split; reflexivity. Qed.

(** C6, amended. [clientVersion] changes only when an inbound message is
    handled, and then it becomes that message's [version]: after any
    non-empty sequence of inbound messages on an open socket it equals
    the version of the last one, whatever it held before.  The reader of
    App1.tsx assigns it the same way. *)
Theorem clientVersion_is_last_inbound_version :
  (∀ (ev : Event) (w : World),
      WebSocketManager.clientVersion (mgr (step ev w))
      ≠ WebSocketManager.clientVersion (mgr w) →
      ∃ s msg, ev = EvMessage s (JSON_stringify msg)
               ∧ readyState_of s w = Some OPEN
               ∧ WebSocketManager.clientVersion (mgr (step ev w)) = version msg)
  ∧ (∀ (s : nat) (msgs : list WebSocketMessage) (last : WebSocketMessage) (w : World),
      readyState_of s w = Some OPEN →
      WebSocketManager.clientVersion
        (mgr (run (map (λ m, EvMessage s (JSON_stringify m)) (msgs ++ [last])) w))
      = version last)
  ∧ (∀ (Store : Type) (setUsers_key : string → option User → Store → Store)
       (setUsers_field : string → string → jsval → Store → option Store)
       (msg : WebSocketMessage) (st : App1.State Store),
      App1.clientVersion
        (App1.state_of (App1.onmessage setUsers_key setUsers_field msg st))
      = version msg).
Proof.
  split; [|split].
  - apply step_clientVersion.
  - intros s msgs last w. revert w.
    induction msgs as [|m msgs IH]; intros w Hr.
    + cbn. by apply step_message_open.
    + cbn [app map run foldl]. apply IH. by apply step_message_open.
  - intros Store sk sf msg st. unfold App1.onmessage.
    destruct (type (body msg)); [done| |done].
    destruct (row_changes (body msg)); [|done].
    destruct (App1.apply_entries _ _ _ _) as [u []]; done.
Qed.

Lemma clientVersion_is_last_inbound_version_witness :
  readyState_of 0 connected_world = Some OPEN
  ∧ WebSocketManager.clientVersion
      (mgr (run (map (λ m, EvMessage 0 (JSON_stringify m))
                   ([edit_batched "Mendy" {[ "age" := VNum 31 ]} 5]
                      ++ [edit_batched "Mendy" {[ "age" := VNum 32 ]} 3]))
              connected_world)) = 3%Z.
Proof.
  split; [reflexivity|].
  apply (proj1 (proj2 clientVersion_is_last_inbound_version) 0
           [edit_batched "Mendy" {[ "age" := VNum 31 ]} 5]
           (edit_batched "Mendy" {[ "age" := VNum 32 ]} 3) connected_world).
  reflexivity.
Defined.




Section ReconnectFacts.
Import WebSocketManager.

Lemma update_socket_length i f b :
  length (sockets (update_socket i f b)) = length (sockets b).
Proof.
  unfold update_socket. destruct (sockets b !! i); [|done].
  cbn. by rewrite length_insert.
Qed.

Lemma update_socket_timers i f b : timers (update_socket i f b) = timers b.
Proof. unfold update_socket. by destruct (sockets b !! i). Qed.

(** Without a socket opening, an exhausted manager stays exhausted:
    the step sets no timeout, keeps the counter and the maximum, and
    creates a socket only for a [connect()] call. *)
Lemma step_exhausted ev w :
  is_open_event ev = false → exhausted w →
  exhausted (step ev w)
  ∧ reconnectAttempts (mgr (step ev w)) = reconnectAttempts (mgr w)
  ∧ maxReconnectAttempts (mgr (step ev w)) = maxReconnectAttempts (mgr w)
  ∧ (is_connect_call ev = false →
     length (sockets (browser (step ev w))) = length (sockets (browser w))).
Proof.
  intros Hev [Hmax Ht]. unfold exhausted.
  destruct ev as [s | s e | s | s | t | cb | m now |]; cbn [step]; try done.
  - destruct (readyState_of s w) as [[]|]; try done.
    unfold Manager.onmessage. destruct (JSON_parse e) as [msg|]; [|done].
    cbn. by destruct (onMessageCallback (mgr w)).
  - destruct (readyState_of s w) as [[]|]; done.
  - destruct (readyState_of s w) as [[]|]; try done;
      unfold Manager.onclose; rewrite attemptReconnect_exhausted by done; cbn;
      rewrite update_socket_length, update_socket_timers; done.
  - rewrite Ht. done.
  - unfold Manager.connect. cbn.
    destruct (accepts_url (browser w) _); [done|].
    rewrite attemptReconnect_exhausted by done. done.
  - rewrite send_mgr. unfold Manager.send.
    destruct (Manager.open_socket w); cbn;
      rewrite ?update_socket_length, ?update_socket_timers; done.
  - unfold Manager.disconnect. destruct (socket (mgr w)); [|done]. cbn.
    rewrite update_socket_length, update_socket_timers. done.
Qed.

Lemma run_exhausted evs w :
  forallb (λ ev, negb (is_open_event ev)) evs = true → exhausted w →
  exhausted (run evs w)
  ∧ reconnectAttempts (mgr (run evs w)) = reconnectAttempts (mgr w)
  ∧ (forallb (λ ev, negb (is_connect_call ev)) evs = true →
     length (sockets (browser (run evs w))) = length (sockets (browser w))).
Proof.
  revert w. induction evs as [|ev evs IH]; intros w Hevs Hex; [done|].
  cbn in Hevs. apply andb_prop in Hevs as [Hev Hevs].
  apply negb_true_iff in Hev.
  destruct (step_exhausted ev w Hev Hex) as (Hex' & Hn & _ & Hlen).
  destruct (IH (step ev w) Hevs Hex') as (? & Hn' & Hlen').
  cbn [run foldl]. split; [done|]. split; [by rewrite <- Hn|].
  intros Hc. cbn in Hc. apply andb_prop in Hc as [Hc1 Hc2].
  apply negb_true_iff in Hc1. rewrite <- Hlen by done. by apply Hlen'.
Qed.

End ReconnectFacts.

(** C4. A close event of a socket, and a failure of the [WebSocket]
    constructor inside [connect], each increment the attempt counter and
    set one timeout of [2000 ms] times the incremented counter, as long as
    the counter is below the maximum; a socket opening resets the counter
    to zero; and once the counter has reached the maximum and the last
    timeout has fired, no event other than a socket opening sets a timeout
    or changes the counter, and no socket is created unless [connect()] is
    called.  For the mounted component the failing loop sets timeouts of
    2, 4, 6, 8 and 10 seconds and then none. *)
Theorem reconnection_is_linear_and_bounded :
  (∀ (i : nat) (w : World),
      can_close i w = true →
      WebSocketManager.reconnectAttempts (mgr w)
      < WebSocketManager.maxReconnectAttempts (mgr w) →
      let w' := step (EvClose i) w in
      WebSocketManager.reconnectAttempts (mgr w')
      = S (WebSocketManager.reconnectAttempts (mgr w))
      ∧ timers (browser w')
        = (timers (browser w)
             ++ [(Manager.base_delay
                  * Z.of_nat (S (WebSocketManager.reconnectAttempts (mgr w))))%Z])%list)
  ∧ (∀ (cb : Callback) (w : World),
      accepts_url (browser w) (Manager.endpoint (mgr w)) = false →
      WebSocketManager.reconnectAttempts (mgr w)
      < WebSocketManager.maxReconnectAttempts (mgr w) →
      let w' := step (CallConnect cb) w in
      WebSocketManager.reconnectAttempts (mgr w')
      = S (WebSocketManager.reconnectAttempts (mgr w))
      ∧ timers (browser w')
        = (timers (browser w)
             ++ [(Manager.base_delay
                  * Z.of_nat (S (WebSocketManager.reconnectAttempts (mgr w))))%Z])%list)
  ∧ (∀ (i : nat) (w : World),
      readyState_of i w = Some CONNECTING →
      WebSocketManager.reconnectAttempts (mgr (step (EvOpen i) w)) = 0)
  ∧ (∀ (evs : list Event) (w : World),
      WebSocketManager.maxReconnectAttempts (mgr w)
      ≤ WebSocketManager.reconnectAttempts (mgr w) →
      timers (browser w) = [] →
      forallb (λ ev, negb (is_open_event ev)) evs = true →
      timers (browser (run evs w)) = []
      ∧ WebSocketManager.reconnectAttempts (mgr (run evs w))
        = WebSocketManager.reconnectAttempts (mgr w)
      ∧ (forallb (λ ev, negb (is_connect_call ev)) evs = true →
         length (sockets (browser (run evs w))) = length (sockets (browser w))))
  ∧ timers_after_closes failing_loop mounted
    = [[2000]; [4000]; [6000]; [8000]; [10000]; []]%Z.
Proof.
  split; [|split; [|split; [|split]]].
  - intros i w Hc Hlt w'. unfold w'. cbn [step]. unfold can_close in Hc.
    destruct (readyState_of i w) as [[]|]; try done;
      unfold Manager.onclose; rewrite attemptReconnect_schedules by done; cbn;
      rewrite update_socket_timers; done.
  - intros cb w Hurl Hlt w'. unfold w'. cbn [step]. unfold Manager.connect.
    cbn [mgr on_mgr browser].
    change (Manager.endpoint (WebSocketManager.set_onMessageCallback (Some cb) (mgr w)))
      with (Manager.endpoint (mgr w)).
    rewrite Hurl.
    rewrite attemptReconnect_schedules by done. done.
  - intros i w Hr. cbn [step]. by rewrite Hr.
  - intros evs w Hmax Ht Hevs.
    destruct (run_exhausted evs w Hevs (conj Hmax Ht)) as ([_ ?] & ? & ?). done.
  - vm_compute. reflexivity.
Qed.

(** The constructor failing at mount and at every retry: each timeout
    that fires fails again and sets the next, up to the fifth. *)
Example rejected_mount_retries_five_times :
  timers (browser (App.mount "c1" rejecting_browser)) = [2000%Z]
  ∧ timers (browser (run [EvTimeout 0; EvTimeout 0; EvTimeout 0; EvTimeout 0]
                       (App.mount "c1" rejecting_browser))) = [10000%Z]
  ∧ exhausted (run [EvTimeout 0; EvTimeout 0; EvTimeout 0; EvTimeout 0; EvTimeout 0]
                 (App.mount "c1" rejecting_browser)).
Proof. split; [reflexivity|]. split; [reflexivity|]. split; [vm_compute; lia | reflexivity]. Qed.

Lemma reconnection_is_linear_and_bounded_witness :
  (can_close 0 connected_world = true
   ∧ WebSocketManager.reconnectAttempts (mgr connected_world)
     < WebSocketManager.maxReconnectAttempts (mgr connected_world))
  ∧ timers (browser (step (EvClose 0) connected_world))
    = ([] ++ [(Manager.base_delay * Z.of_nat 1)%Z])%list.
Proof.
  split; [split; [reflexivity | cbn; lia]|].
  apply (proj1 reconnection_is_linear_and_bounded 0 connected_world);
    [reflexivity | cbn; lia].
Defined.

Section DisconnectFacts.
Import WebSocketManager.

(** What [disconnect] does do: it is idempotent, it closes the socket
    it holds and lets go of it. *)
Lemma disconnect_idempotent w :
  Manager.disconnect (Manager.disconnect w) = Manager.disconnect w.
Proof.
  unfold Manager.disconnect at 2 3.
  destruct (socket (mgr w)) as [i|] eqn:Hs; [done|].
  unfold Manager.disconnect. by rewrite Hs.
Qed.

Lemma disconnect_closes w i s :
  socket (mgr w) = Some i → sockets (browser w) !! i = Some s →
  socket (mgr (Manager.disconnect w)) = None
  ∧ sockets (browser (Manager.disconnect w)) !! i = Some (close s).
Proof.
  intros Hi Hs. unfold Manager.disconnect. rewrite Hi. cbn.
  split; [done|]. unfold update_socket. rewrite Hs. cbn.
  apply list_lookup_insert_eq. by eapply lookup_lt_Some.
Qed.

(** What it leaves as it was: the callback, the attempt counter and
    the pending timeouts. *)
Lemma disconnect_keeps w :
  onMessageCallback (mgr (Manager.disconnect w)) = onMessageCallback (mgr w)
  ∧ reconnectAttempts (mgr (Manager.disconnect w)) = reconnectAttempts (mgr w)
  ∧ timers (browser (Manager.disconnect w)) = timers (browser w).
Proof.
  unfold Manager.disconnect. destruct (socket (mgr w)); [|done]. cbn.
  by rewrite update_socket_timers.
Qed.

End DisconnectFacts.

(** C2. The code at the failing input: the component is mounted and its
    socket is open; [disconnect()] is called; the browser then delivers
    the close event of the socket just closed.  The manager has let go of
    the socket and a second [disconnect()] changes nothing, but the
    callback is still registered, the close event sets a reconnection
    timeout of 2000 ms, and when that fires a new socket is opened.  A
    timeout already pending when [disconnect()] is called fires the same
    way. *)
Theorem disconnect_leaves_reconnection_armed :
  let w1 := step CallDisconnect connected_world in
  let w2 := step (EvClose 0) w1 in
  let w3 := step (EvTimeout 0) w2 in
  let pending := run [EvClose 0; CallDisconnect; EvTimeout 0] connected_world in
  WebSocketManager.socket (mgr w1) = None
  ∧ readyState_of 0 w1 = Some CLOSING
  ∧ step CallDisconnect w1 = w1
  ∧ is_Some (WebSocketManager.onMessageCallback (mgr w1))
  ∧ timers (browser w1) = []
  ∧ timers (browser w2) = [2000%Z]
  ∧ WebSocketManager.reconnectAttempts (mgr w2) = 1
  ∧ WebSocketManager.socket (mgr w3) = Some 1
  ∧ readyState_of 1 w3 = Some CONNECTING
  ∧ WebSocketManager.socket (mgr pending) = Some 1
  ∧ readyState_of 1 pending = Some CONNECTING.
Proof.
  cbv zeta. repeat split; try reflexivity.
  eexists. reflexivity.
Qed.

(** ** Indexed cache *)

Section KeyFacts.
Import LocalStorageWithIndex.

Lemma append_inj_r (p a b : string) : p ++ a = p ++ b → a = b.
Proof. induction p as [|c p IH]; cbn; intros H; [done|]. apply IH. by inversion H. Qed.

Lemma getFullKey_inj prefix id1 id2 :
  getFullKey prefix id1 = getFullKey prefix id2 → id1 = id2.
Proof.
  unfold getFullKey. intros H. apply append_inj_r in H. by inversion H.
Qed.

Lemma hyphens_app (a b : string) : hyphens (a ++ b) = hyphens a + hyphens b.
Proof. induction a as [|c a IH]; simpl; [done|]. rewrite IH. lia. Qed.

(** A composite key has one hyphen more than the prefix, the index key
    has as many as the prefix: they never coincide. *)
Lemma getFullKey_not_indexKey prefix id : getFullKey prefix id ≠ indexKey prefix.
Proof.
  intros H. apply (f_equal hyphens) in H. unfold getFullKey, indexKey in H.
  rewrite !hyphens_app in H. cbn in H. lia.
Qed.

Lemma elem_of_Set_add (x k : string) (s : list string) :
  x ∈ Set_add k s ↔ x = k ∨ x ∈ s.
Proof.
  unfold Set_add. case_decide.
  - split; [by right|]. intros [->|]; done.
  - rewrite elem_of_app, list_elem_of_singleton. tauto.
Qed.

Lemma elem_of_Set_of_acc (x : string) (l acc : list string) :
  x ∈ foldl (λ s k, Set_add k s) acc l ↔ x ∈ acc ∨ x ∈ l.
Proof.
  revert acc. induction l as [|k l IH]; intros acc; cbn.
  - rewrite elem_of_nil. tauto.
  - rewrite IH, elem_of_Set_add, elem_of_cons. tauto.
Qed.

Lemma elem_of_Set_of (x : string) (l : list string) : x ∈ Set_of l ↔ x ∈ l.
Proof. unfold Set_of. rewrite elem_of_Set_of_acc, elem_of_nil. tauto. Qed.

Lemma elem_of_Set_delete (x k : string) (s : list string) :
  x ∈ Set_delete k s ↔ x ≠ k ∧ x ∈ s.
Proof. unfold Set_delete. by rewrite list_elem_of_filter. Qed.

End KeyFacts.

Section CacheFacts.
Import LocalStorage LocalStorageWithIndex.

Context {T : Type}.
Variable stringify : T → string.
Variable parse : string → option T.
Variable stringify_index : list string → string.
Variable parse_index : string → option (list string).
Variable prefix : string.

(** What is asked of the two codecs: parsing gives back what was
    written, and a written index is never the empty text. *)
Hypothesis parse_stringify : ∀ v, parse (stringify v) = Some v.
Hypothesis parse_index_stringify : ∀ l, parse_index (stringify_index l) = Some l.
Hypothesis stringify_index_nonempty : ∀ l, stringify_index l ≠ EmptyString.

Local Abbreviation fullKey := (getFullKey prefix).
Local Abbreviation index_is := (index_is stringify_index prefix).
Local Abbreviation agrees := (agrees stringify stringify_index prefix).
Local Abbreviation getIndex := (getIndex parse_index prefix).
Local Abbreviation collect := (collect parse).
Local Abbreviation perform := (perform stringify stringify_index parse_index prefix).
Local Abbreviation performAll := (performAll stringify stringify_index parse_index prefix).
Local Abbreviation getAllItems := (getAllItems parse parse_index prefix).

Lemma getIndex_index_is st index : index_is st index → getIndex st = (Some index, st).
Proof.
  unfold LocalStorageWithIndex.getIndex, bind, LocalStorage.getItem.
  intros [[Hn ->] | Hs].
  - by rewrite Hn.
  - rewrite Hs. destruct (stringify_index index) eqn:E.
    + by apply stringify_index_nonempty in E.
    + rewrite <- E, parse_index_stringify. done.
Qed.

Lemma index_is_insert st index k text :
  k ≠ indexKey prefix → index_is st index → index_is (<[k := text]> st) index.
Proof. intros Hk. unfold LocalStorageWithIndex.index_is. by rewrite lookup_insert_ne. Qed.

Lemma index_is_delete st index k :
  k ≠ indexKey prefix → index_is st index → index_is (delete k st) index.
Proof. intros Hk. unfold LocalStorageWithIndex.index_is. by rewrite lookup_delete_ne. Qed.

Lemma index_is_written st index :
  index_is (<[indexKey prefix := stringify_index index]> st) index.
Proof. right. apply lookup_insert_eq. Qed.

(** The loop of [getAllItems]: it does not throw when every indexed
    text parses, it leaves the storage alone, and it adds to [items]
    exactly the indexed keys that hold a text. *)
Lemma collect_spec (index : list string) :
  ∀ (items : gmap string T) (st : Storage),
    (∀ k text, k ∈ index → st !! k = Some text → is_Some (parse text)) →
    ∃ m, collect index items st = (Some m, st)
         ∧ ∀ k, m !! k
                = match (if decide (k ∈ index) then st !! k ≫= parse else None) with
                  | Some v => Some v
                  | None => items !! k
                  end.
Proof.
  induction index as [|key rest IH]; intros items st Hparse.
  - exists items. split; [done|]. intros k. by rewrite decide_False by apply not_elem_of_nil.
  - cbn [LocalStorageWithIndex.collect]. unfold bind at 1, LocalStorage.getItem at 1.
    assert (∀ k text, k ∈ rest → st !! k = Some text → is_Some (parse text)) as Hrest.
    { intros k text Hk. apply Hparse. by right. }
    destruct (st !! key) as [text|] eqn:Hkey.
    + destruct (Hparse key text) as [v Hv]; [by left | done |].
      unfold bind at 1. rewrite Hv. cbn [lift ret].
      destruct (IH (<[key := v]> items) st Hrest) as (m & Hm & Hlook).
      exists m. split; [done|]. intros k. rewrite Hlook.
      destruct (decide (k = key)) as [->|Hne].
      * rewrite (decide_True (P := key ∈ key :: rest)) by by left.
        rewrite Hkey. cbn. rewrite Hv.
        case_decide; [done | by rewrite lookup_insert_eq].
      * rewrite lookup_insert_ne by done.
        destruct (decide (k ∈ rest)) as [Hin|Hnin].
        -- by rewrite (decide_True (P := k ∈ key :: rest)) by by right.
        -- rewrite (decide_False (P := k ∈ key :: rest)); [done|].
           rewrite elem_of_cons. tauto.
    + destruct (IH items st Hrest) as (m & Hm & Hlook).
      exists m. split; [done|]. intros k. rewrite Hlook.
      destruct (decide (k = key)) as [->|Hne].
      * rewrite (decide_True (P := key ∈ key :: rest)) by by left.
        rewrite Hkey. by case_decide.
      * destruct (decide (k ∈ rest)) as [Hin|Hnin].
        -- by rewrite (decide_True (P := k ∈ key :: rest)) by by right.
        -- rewrite (decide_False (P := k ∈ key :: rest)); [done|].
           rewrite elem_of_cons. tauto.
Qed.

Lemma agrees_unused st : unused prefix st → agrees st ∅ ∅.
Proof.
  intros [Hix Hkeys]. split; [|split].
  - exists []. split; [by left|]. intros k. split.
    + intros H. by apply not_elem_of_nil in H.
    + intros (id & _ & H). by apply not_elem_of_empty in H.
  - intros id. by rewrite Hkeys, lookup_empty.
  - intros id [v Hv]. by rewrite lookup_empty in Hv.
Qed.

(** Every operation ends without an exception and keeps the storage
    in agreement with the reference. *)
Lemma perform_agrees op st m s :
  agrees st m s →
  ∃ st', perform op st = (Some tt, st')
         ∧ agrees st' (spec_latest_step m op) (spec_indexed_step s op).
Proof.
  intros ((index & Hix & Hmem) & Hval & Hdom).
  destruct op as [id v | id | id]; cbn [LocalStorageWithIndex.perform].
  - unfold LocalStorageWithIndex.setItem, bind at 1, LocalStorage.setItem at 1.
    unfold bind at 1.
    rewrite (getIndex_index_is _ index)
      by (apply index_is_insert; [apply getFullKey_not_indexKey | done]).
    unfold setIndex, LocalStorage.setItem. eexists. split; [done|].
    split; [|split].
    + eexists. split; [apply index_is_written|].
      intros k. rewrite elem_of_Set_add, elem_of_Set_of, Hmem. cbn. split.
      * intros [-> | (id' & -> & Hin)]; [exists id | exists id']; (split; [done|]).
        -- apply elem_of_union_l. by apply elem_of_singleton.
        -- by apply elem_of_union_r.
      * intros (id' & -> & Hin). apply elem_of_union in Hin as [Hin|Hin].
        -- left. apply elem_of_singleton in Hin. by subst.
        -- right. eauto.
    + intros id'. rewrite lookup_insert_ne by (apply not_eq_sym, getFullKey_not_indexKey).
      cbn. destruct (decide (id = id')) as [->|Hne].
      * by rewrite !lookup_insert_eq.
      * rewrite !lookup_insert_ne; [done | done |].
        intros H. by apply getFullKey_inj in H.
    + intros id'. cbn. destruct (decide (id = id')) as [->|Hne].
      * intros _. apply elem_of_union_l. by apply elem_of_singleton.
      * rewrite lookup_insert_ne by done. intros H. apply Hdom in H.
        by apply elem_of_union_r.
  - unfold LocalStorageWithIndex.removeItem, bind at 1, LocalStorage.removeItem at 1.
    unfold bind at 1.
    rewrite (getIndex_index_is _ index)
      by (apply index_is_delete; [apply getFullKey_not_indexKey | done]).
    unfold setIndex, LocalStorage.setItem. eexists. split; [done|].
    split; [|split].
    + eexists. split; [apply index_is_written|].
      intros k. rewrite elem_of_Set_delete, elem_of_Set_of, Hmem. cbn. split.
      * intros (Hne & id' & -> & Hin). exists id'. split; [done|].
        apply elem_of_difference. split; [done|].
        intros Heq. apply elem_of_singleton in Heq. by subst.
      * intros (id' & -> & Hin). apply elem_of_difference in Hin as [Hin Hne].
        split; [|eauto]. intros H. apply getFullKey_inj in H. set_solver.
    + intros id'. rewrite lookup_insert_ne by (apply not_eq_sym, getFullKey_not_indexKey).
      cbn. destruct (decide (id = id')) as [->|Hne].
      * by rewrite !lookup_delete_eq.
      * rewrite !lookup_delete_ne; [done | done |].
        intros H. by apply getFullKey_inj in H.
    + intros id'. cbn. destruct (decide (id = id')) as [->|Hne].
      * rewrite lookup_delete_eq. by intros [? ?].
      * rewrite lookup_delete_ne by done. intros H. apply Hdom in H.
        apply elem_of_difference. split; [done|].
        intros Heq. apply elem_of_singleton in Heq. by subst.
  - unfold LocalStorage.removeItem. eexists. split; [done|].
    split; [|split].
    + exists index. split; [|done].
      apply index_is_delete; [apply getFullKey_not_indexKey | done].
    + intros id'. cbn. destruct (decide (id = id')) as [->|Hne].
      * by rewrite !lookup_delete_eq.
      * rewrite !lookup_delete_ne; [done | done |].
        intros H. by apply getFullKey_inj in H.
    + intros id'. cbn. destruct (decide (id = id')) as [->|Hne].
      * rewrite lookup_delete_eq. by intros [? ?].
      * rewrite lookup_delete_ne by done. apply Hdom.
Qed.

Lemma performAll_agrees ops :
  ∀ st m s,
    agrees st m s →
    ∃ st', performAll ops st = (Some tt, st')
           ∧ agrees st' (foldl spec_latest_step m ops) (foldl spec_indexed_step s ops).
Proof.
  induction ops as [|op ops IH]; intros st m s Hag.
  - by exists st.
  - destruct (perform_agrees op st m s Hag) as (st1 & Hop & Hag1).
    destruct (IH st1 _ _ Hag1) as (st2 & Hops & Hag2).
    exists st2. split; [|done].
    cbn [LocalStorageWithIndex.performAll]. unfold bind. by rewrite Hop.
Qed.

(** On a storage that agrees with a reference, [getAllItems] returns
    without an exception a mapping whose keys are the indexed keys that
    still hold a text and whose value at the composite key of an id is
    the reference's value for the id. *)
Lemma getAllItems_agrees st m s :
  agrees st m s →
  ∃ index items,
    getIndex st = (Some index, st)
    ∧ (∀ k, k ∈ index ↔ ∃ id, k = fullKey id ∧ id ∈ s)
    ∧ getAllItems st = (Some items, st)
    ∧ (∀ k, is_Some (items !! k) ↔ k ∈ index ∧ is_Some (st !! k))
    ∧ (∀ id, items !! fullKey id = m !! id).
Proof.
  intros ((index & Hix & Hmem) & Hval & Hdom).
  assert (∀ k text, k ∈ index → st !! k = Some text → is_Some (parse text)) as Hparse.
  { intros k text Hk Hst. apply Hmem in Hk as (id & -> & _).
    rewrite Hval in Hst. destruct (m !! id) as [v|]; [|done].
    inversion Hst; subst. rewrite parse_stringify. by eexists. }
  destruct (collect_spec index ∅ st Hparse) as (items & Hcollect & Hlook).
  exists index, items.
  split; [by apply getIndex_index_is|]. split; [done|]. split; [|split].
  - unfold LocalStorageWithIndex.getAllItems, bind.
    by rewrite (getIndex_index_is _ index).
  - intros k. rewrite Hlook, lookup_empty. case_decide as Hin.
    + destruct (st !! k) as [text|] eqn:Hst; cbn.
      * destruct (Hparse k text Hin Hst) as [v ->]. split; [|by eexists].
        intros _. split; [done | by eexists].
      * split; [by intros [? ?] | by intros [_ [? ?]]].
    + split; [by intros [? ?] | by intros [? _]].
  - intros id. rewrite Hlook, lookup_empty, Hval. case_decide as Hin.
    + destruct (m !! id) as [v|]; [|done]. cbn. by rewrite parse_stringify.
    + destruct (m !! id) as [v|] eqn:Hm; [|done].
      exfalso. apply Hin, Hmem. exists id. split; [done|]. apply Hdom. by eexists.
Qed.

End CacheFacts.

Section ReferenceFacts.
Import LocalStorageWithIndex.
Context {T : Type}.

(** As long as every removal goes through the cache, every indexed id
    has a value. *)
Lemma indexed_has_value ops :
  ∀ (m : gmap string T) (s : gset string),
    forallb through_the_cache ops = true →
    (∀ id, id ∈ s → is_Some (m !! id)) →
    ∀ id, id ∈ foldl spec_indexed_step s ops →
          is_Some (foldl spec_latest_step m ops !! id).
Proof.
  induction ops as [|op ops IH]; intros m s Hall Hfull; [done|].
  cbn in Hall. apply andb_prop in Hall as [Hop Hall].
  cbn [foldl]. apply IH; [done|].
  intros id. destruct op as [id' v | id' | id']; cbn; [| |done].
  - destruct (decide (id' = id)) as [->|Hne].
    + rewrite lookup_insert_eq. by eexists.
    + rewrite lookup_insert_ne by done. intros H. apply Hfull.
      apply elem_of_union in H as [H|H]; [|done].
      apply elem_of_singleton in H. by subst.
  - intros H. apply elem_of_difference in H as [Hin Hne].
    rewrite lookup_delete_ne by set_solver. by apply Hfull.
Qed.

End ReferenceFacts.

Section SampleCodecFacts.
Import SampleCodec.

Lemma append_String (c : ascii) (s t : string) : String c s ++ t = String c (s ++ t).
Proof. reflexivity. Qed.

Lemma append_empty_r (s : string) : s ++ EmptyString = s.
Proof. induction s as [|c s IH]; [done|]. by rewrite append_String, IH. Qed.

Lemma append_snoc (a b : string) (c : ascii) :
  (a ++ String c EmptyString) ++ b = a ++ String c b.
Proof. induction a as [|d a IH]; [done|]. by rewrite !append_String, IH. Qed.

Lemma decode_escape (s rest cur : string) (acc : list string) :
  decode_items (escape s ++ rest) cur acc
  = decode_items rest EmptyString (acc ++ [(cur ++ s)%string])%list.
Proof.
  revert cur. induction s as [|c s IH]; intros cur.
  - by rewrite append_empty_r.
  - cbn [escape]. rewrite !append_String. cbn [decode_items Ascii.eqb Bool.eqb].
    by rewrite IH, append_snoc.
Qed.

Lemma encode_items_cons (s : string) (l : list string) :
  encode_items (s :: l) = escape s ++ encode_items l.
Proof. reflexivity. Qed.

Lemma decode_encode (l acc : list string) :
  decode_items (encode_items l) EmptyString acc = Some (acc ++ l)%list.
Proof.
  revert acc. induction l as [|s l IH]; intros acc.
  - cbn. by rewrite app_nil_r.
  - rewrite encode_items_cons, decode_escape, IH. by rewrite <- app_assoc.
Qed.

Lemma sample_parse_stringify (v : string) : parse (stringify v) = Some v.
Proof. reflexivity. Qed.

Lemma sample_parse_index_stringify (l : list string) :
  parse_index (stringify_index l) = Some l.
Proof. unfold stringify_index. rewrite append_String. apply decode_encode. Qed.

Lemma sample_stringify_index_nonempty (l : list string) :
  stringify_index l ≠ EmptyString.
Proof. unfold stringify_index. by rewrite append_String. Qed.

End SampleCodecFacts.

(** C8, as stated, fails: after [setItem] of a value under the id [a] in
    the cache with prefix [user], the mapping [getAllItems()] returns has
    nothing at [a]; the value is at the composite key [user-a]. *)
Lemma getAllItems_is_keyed_by_composite_key :
  ∃ st items,
    sample_performAll [LocalStorageWithIndex.OpSetItem "a" "v1"] ∅ = (Some tt, st)
    ∧ sample_getAllItems st = (Some items, st)
    ∧ LocalStorageWithIndex.spec_latest [LocalStorageWithIndex.OpSetItem "a" "v1"] !! "a"
      = Some "v1"
    ∧ items !! "a" = None
    ∧ items !! "user-a" = Some "v1".
Proof.
  eexists _, _. split; [vm_compute; reflexivity|].
  split; [vm_compute; reflexivity|]. repeat split; vm_compute; reflexivity.
Qed.

(** C8, amended. With codecs that give back what they wrote, on a
    storage that holds nothing of this cache yet, any sequence of
    [setItem], [removeItem] and removals of stored values that bypass the
    cache ends without an exception, and [getAllItems()] then returns a
    mapping keyed by composite key [prefix-id], not by id: the index
    holds the composite keys of the ids set and not removed through the
    cache; the keys of the mapping are exactly the indexed keys that
    still hold a stored value, an indexed key whose value was removed
    behind the cache's back being left out; the value at the composite
    key of an id is the value most recently set for the id; and when all
    removals went through the cache the keys of the mapping are exactly
    the keys in the index. *)
Theorem getAllItems_returns_latest_by_composite_key
  {T : Type} (stringify : T → string) (parse : string → option T)
  (stringify_index : list string → string) (parse_index : string → option (list string))
  (prefix : string) (st0 : gmap string string)
  (ops : list (LocalStorageWithIndex.Op T)) :
  (∀ v, parse (stringify v) = Some v) →
  (∀ l, parse_index (stringify_index l) = Some l) →
  (∀ l, stringify_index l ≠ EmptyString) →
  unused prefix st0 →
  ∃ st index items,
    LocalStorageWithIndex.performAll stringify stringify_index parse_index prefix ops st0
    = (Some tt, st)
    ∧ LocalStorageWithIndex.getIndex parse_index prefix st = (Some index, st)
    ∧ LocalStorageWithIndex.getAllItems parse parse_index prefix st = (Some items, st)
    ∧ (∀ k, k ∈ index
            ↔ ∃ id, k = LocalStorageWithIndex.getFullKey prefix id
                    ∧ id ∈ LocalStorageWithIndex.spec_indexed ops)
    ∧ (∀ k, is_Some (items !! k) ↔ k ∈ index ∧ is_Some (st !! k))
    ∧ (∀ id, items !! LocalStorageWithIndex.getFullKey prefix id
             = LocalStorageWithIndex.spec_latest ops !! id)
    ∧ (forallb LocalStorageWithIndex.through_the_cache ops = true →
       ∀ k, k ∈ index ↔ is_Some (items !! k)).
Proof.
  intros Hv Hix Hne Hunused.
  destruct (performAll_agrees stringify parse stringify_index parse_index prefix
              Hv Hix Hne ops st0 ∅ ∅)
    as (st & Hrun & Hag); [by apply agrees_unused|].
  destruct (getAllItems_agrees stringify parse stringify_index parse_index prefix
              Hv Hix Hne st _ _ Hag)
    as (index & items & Hindex & Hmem & Hget & Hkeys & Hval).
  exists st, index, items. repeat split; try done.
  - by apply Hmem.
  - by apply Hmem.
  - by apply Hkeys.
  - by apply Hkeys.
  - by apply Hkeys.
  - intros Hin. apply Hmem in Hin as (id & -> & Hin). rewrite Hval.
    by apply (indexed_has_value ops ∅ ∅).
  - intros Hsome. by apply Hkeys in Hsome as [? _].
Qed.

Lemma getAllItems_returns_latest_by_composite_key_witness :
  (∀ v, SampleCodec.parse (SampleCodec.stringify v) = Some v)
  ∧ (∀ l, SampleCodec.parse_index (SampleCodec.stringify_index l) = Some l)
  ∧ (∀ l, SampleCodec.stringify_index l ≠ EmptyString)
  ∧ unused "user" ∅
  ∧ ∃ st items,
      sample_performAll
        [LocalStorageWithIndex.OpSetItem "a" "v1"; LocalStorageWithIndex.OpSetItem "b" "v2";
         LocalStorageWithIndex.OpRemoveItem "a"] ∅
      = (Some tt, st)
      ∧ sample_getAllItems st = (Some items, st)
      ∧ items !! "user-b" = Some "v2".
Proof.
  assert (unused "user" ∅) as Hunused by (split; [|intros id]; apply lookup_empty).
  split; [exact sample_parse_stringify|].
  split; [exact sample_parse_index_stringify|].
  split; [exact sample_stringify_index_nonempty|].
  split; [exact Hunused|].
  destruct (getAllItems_returns_latest_by_composite_key
              SampleCodec.stringify SampleCodec.parse
              SampleCodec.stringify_index SampleCodec.parse_index "user" ∅
              [LocalStorageWithIndex.OpSetItem "a" "v1"; LocalStorageWithIndex.OpSetItem "b" "v2";
               LocalStorageWithIndex.OpRemoveItem "a"]
              sample_parse_stringify sample_parse_index_stringify
              sample_stringify_index_nonempty Hunused)
    as (st & index & items & Hrun & _ & Hget & _ & _ & Hval & _).
  exists st, items. split; [exact Hrun|]. split; [exact Hget|].
  exact (Hval "b").
Defined.

(** * Further properties *)

(** ** Reconciler: how messages compose *)

Section ReconcilerMoreFacts.
Import Reconciler.


Lemma elem_of_Object_values (us : gmap string obj) (u : obj) :
  u ∈ Object_values us ↔ ∃ k, us !! k = Some u.
Proof.
  unfold Object_values. rewrite list_elem_of_fmap. split.
  - intros ([k u'] & -> & Hin). exists k. by apply elem_of_map_to_list.
  - intros [k Hk]. exists (k, u). split; [done|]. by apply elem_of_map_to_list.
Qed.

Lemma elem_of_activeUsers (st : AppState) (u : obj) :
  u ∈ activeUsers st ↔ (∃ k, users st !! k = Some u) ∧ not_deleted u = true.
Proof.
  unfold activeUsers. rewrite list_elem_of_filter, elem_of_Object_values. tauto.
Qed.

End ReconcilerMoreFacts.



(** X2. An inbound delete removes the entry at its key and nothing else;
    for a key that is not in the mapping it changes nothing, and handling
    it twice is the same as handling it once. *)
Theorem delete_removes_only_its_key (msg : WebSocketMessage) (st : AppState) :
  type (body msg) = T_delete →
  users (Reconciler.handleMessage msg st) !! key (body msg) = None
  ∧ (∀ k, k ≠ key (body msg) →
          users (Reconciler.handleMessage msg st) !! k = users st !! k)
  ∧ (users st !! key (body msg) = None → users (Reconciler.handleMessage msg st) = users st)
  ∧ users (Reconciler.handleMessage msg (Reconciler.handleMessage msg st))
    = users (Reconciler.handleMessage msg st).
Proof.
  intros Ht. rewrite !handleMessage_delete by done. repeat split.
  - apply lookup_delete_eq.
  - intros k Hk. by apply lookup_delete_ne.
  - intros Hnone. apply map_eq. intros j.
    destruct (decide (key (body msg) = j)) as [<-|Hne].
    + by rewrite lookup_delete_eq.
    + by rewrite lookup_delete_ne.
  - apply map_eq. intros j. destruct (decide (key (body msg) = j)) as [<-|Hne].
    + by rewrite !lookup_delete_eq.
    + by rewrite !lookup_delete_ne.
Qed.

Lemma delete_removes_only_its_key_witness :
  type (body (delete_message "Mendy" 3)) = T_delete
  ∧ users (Reconciler.handleMessage (delete_message "Mendy" 3) one_user) !! "Mendy" = None.
Proof.
  split; [reflexivity|].
  apply (delete_removes_only_its_key (delete_message "Mendy" 3) one_user). reflexivity.
Defined.

(** X3. An edit for a key that is not in the mapping creates a partial
    record there: the inbound edit leaves exactly its [row_changes] as the
    entry, and [editUser] leaves the one field it was given; neither has
    any other field. *)
Theorem edit_of_missing_key_creates_partial_record :
  (∀ (msg : WebSocketMessage) (rc : obj) (st : AppState),
      type (body msg) = T_edit → row_changes (body msg) = Some rc →
      users st !! key (body msg) = None →
      users (Reconciler.handleMessage msg st) !! key (body msg) = Some rc)
  ∧ (∀ (k f : string) (x : jsval) (now : string) (w : World),
      users (app w) !! k = None →
      users (app (App.editUser k f x now w)) !! k = Some {[ f := x ]}).
Proof.
  split.
  - intros msg rc st Ht Hrc Hnone. rewrite (handleMessage_edit msg rc) by done.
    rewrite lookup_insert_eq, Hnone. f_equal. apply map_eq. intros j.
    rewrite lookup_union. cbn. rewrite lookup_empty. by destruct (rc !! j).
  - intros k f x now w Hnone. unfold App.editUser. rewrite send_app. cbn.
    unfold Reconciler.editUser_optimistic. by rewrite lookup_insert_eq, Hnone.
Qed.

Lemma edit_of_missing_key_creates_partial_record_witness :
  (type (body (edit_batched "Levi" {[ "age" := VNum 31 ]} 7)) = T_edit
   ∧ users one_user !! "Levi" = None)
  ∧ users (Reconciler.handleMessage (edit_batched "Levi" {[ "age" := VNum 31 ]} 7) one_user)
      !! "Levi" = Some {[ "age" := VNum 31 ]}.
Proof.
  split; [split; reflexivity|].
  apply (proj1 edit_of_missing_key_creates_partial_record
           (edit_batched "Levi" {[ "age" := VNum 31 ]} 7)); reflexivity.
Defined.

(** X4. Two inbound edits can be reconciled in either order with the
    same result when they are for different keys, or for the same key with
    [row_changes] that name no field in common. *)
Theorem independent_edits_commute
  (m1 m2 : WebSocketMessage) (rc1 rc2 : obj) (st : AppState) :
  type (body m1) = T_edit → row_changes (body m1) = Some rc1 →
  type (body m2) = T_edit → row_changes (body m2) = Some rc2 →
  key (body m1) ≠ key (body m2) ∨ rc1 ##ₘ rc2 →
  users (Reconciler.handleMessage m1 (Reconciler.handleMessage m2 st))
  = users (Reconciler.handleMessage m2 (Reconciler.handleMessage m1 st)).
Proof.
  intros Ht1 Hr1 Ht2 Hr2 Hind.
  rewrite (handleMessage_edit m1 rc1 (Reconciler.handleMessage m2 st)) by done.
  rewrite (handleMessage_edit m2 rc2 (Reconciler.handleMessage m1 st)) by done.
  rewrite (handleMessage_edit m1 rc1 st), (handleMessage_edit m2 rc2 st) by done.
  destruct (decide (key (body m1) = key (body m2))) as [Heq|Hne].
  - destruct Hind as [?|Hdisj]; [done|]. rewrite Heq.
    rewrite !lookup_insert_eq, !insert_insert_eq, !spread_Some. f_equal.
    rewrite !(assoc_L (∪)). f_equal. by apply map_union_comm.
  - rewrite !lookup_insert_ne by done. by apply insert_insert_ne.
Qed.

Lemma independent_edits_commute_witness :
  (key (body (edit_batched "Mendy" {[ "age" := VNum 31 ]} 1))
   ≠ key (body (edit_batched "Levi" {[ "age" := VNum 9 ]} 2))
   ∨ ({[ "age" := VNum 31 ]} : obj) ##ₘ {[ "age" := VNum 9 ]})
  ∧ users (Reconciler.handleMessage (edit_batched "Mendy" {[ "age" := VNum 31 ]} 1)
             (Reconciler.handleMessage (edit_batched "Levi" {[ "age" := VNum 9 ]} 2) one_user))
    = users (Reconciler.handleMessage (edit_batched "Levi" {[ "age" := VNum 9 ]} 2)
               (Reconciler.handleMessage (edit_batched "Mendy" {[ "age" := VNum 31 ]} 1)
                  one_user)).
Proof.
  assert (key (body (edit_batched "Mendy" {[ "age" := VNum 31 ]} 1))
          ≠ key (body (edit_batched "Levi" {[ "age" := VNum 9 ]} 2))) as Hne
    by (cbn; discriminate).
  split; [by left|].
  apply (independent_edits_commute _ _ {[ "age" := VNum 31 ]} {[ "age" := VNum 9 ]});
    try reflexivity. by left.
Defined.

(** X5. The active view lists exactly the entries whose [is_deleted] is
    not truthy.  Every entry an inbound add writes is in it, and after an
    inbound delete everything in it is an entry of another key; it never
    has more elements than the mapping has keys. *)
Theorem active_view_follows_add_and_delete :
  (∀ (st : AppState) (u : obj),
      u ∈ activeUsers st ↔ (∃ k, users st !! k = Some u) ∧ not_deleted u = true)
  ∧ (∀ (msg : WebSocketMessage) (d : User) (st : AppState),
      type (body msg) = T_add → data (body msg) = Some d →
      Reconciler.with_sync d ∈ activeUsers (Reconciler.handleMessage msg st))
  ∧ (∀ (msg : WebSocketMessage) (st : AppState) (u : obj),
      type (body msg) = T_delete →
      u ∈ activeUsers (Reconciler.handleMessage msg st) →
      ∃ k, k ≠ key (body msg) ∧ users st !! k = Some u)
  ∧ (∀ st : AppState, length (activeUsers st) ≤ size (users st)).
Proof.
  split; [|split; [|split]].
  - apply elem_of_activeUsers.
  - intros msg d st Ht Hd. apply elem_of_activeUsers. split; [|reflexivity].
    exists (key (body msg)). rewrite (handleMessage_add msg d) by done.
    apply lookup_insert_eq.
  - intros msg st u Ht Hin. apply elem_of_activeUsers in Hin as [[k Hk] _].
    rewrite handleMessage_delete in Hk by done.
    destruct (decide (k = key (body msg))) as [->|Hne].
    + by rewrite lookup_delete_eq in Hk.
    + exists k. split; [done|]. by rewrite lookup_delete_ne in Hk.
  - intros st. unfold activeUsers, Object_values.
    etrans; [apply length_filter|]. by rewrite length_fmap, length_map_to_list.
Qed.

Lemma active_view_follows_add_and_delete_witness :
  (type (body (add_message "Levi" 9 2)) = T_add
   ∧ data (body (add_message "Levi" 9 2)) = Some (Reconciler.userData "Levi" 9 "m@x.com"))
  ∧ Reconciler.with_sync (Reconciler.userData "Levi" 9 "m@x.com")
    ∈ activeUsers (Reconciler.handleMessage (add_message "Levi" 9 2) one_user).
Proof.
  split; [split; reflexivity|].
  apply (proj1 (proj2 active_view_follows_add_and_delete) (add_message "Levi" 9 2));
    reflexivity.
Defined.

Section AddUserFacts.
Import Reconciler.

Lemma with_sync_name (d : User) : with_sync d !! "name" = Some (VStr (name d)).
Proof. reflexivity. Qed.

Lemma with_sync_email (d : User) : with_sync d !! "email" = Some (VStr (email d)).
Proof. reflexivity. Qed.

Lemma addUser_users (n : string) (a : Z) (e now : string) (w : World) :
  users (app (App.addUser n a e now w))
  = <[n := with_sync (userData n a e)]> (users (app w)).
Proof. unfold App.addUser. by rewrite send_app. Qed.

End AddUserFacts.

(** X6. The [name] and [email] that [addUser] stores never start or end
    with whitespace.  Two different names that trim to the same text are
    stored under two keys, and both entries then show the same [name]: the
    name field does not identify an entry. *)
Theorem addUser_stores_trimmed_fields :
  (∀ (n : string) (a : Z) (e now : string) (w : World),
      ∃ sn se,
        field_of (users (app (App.addUser n a e now w))) n "name" = Some (VStr sn)
        ∧ field_of (users (app (App.addUser n a e now w))) n "email" = Some (VStr se)
        ∧ starts_with_whitespace sn = false ∧ ends_with_whitespace sn = false
        ∧ starts_with_whitespace se = false ∧ ends_with_whitespace se = false)
  ∧ (∀ (n1 n2 : string) (a1 a2 : Z) (e1 e2 t1 t2 : string) (w : World),
      n1 ≠ n2 → trim n1 = trim n2 →
      let w' := App.addUser n2 a2 e2 t2 (App.addUser n1 a1 e1 t1 w) in
      field_of (users (app w')) n1 "name" = Some (VStr (trim n1))
      ∧ field_of (users (app w')) n2 "name" = Some (VStr (trim n1))).
Proof.
  split.
  - intros n a e now w. exists (trim n), (trim e).
    unfold field_of. rewrite addUser_users, lookup_insert_eq. cbn [mbind option_bind].
    rewrite with_sync_name, with_sync_email.
    destruct (trim_clean n), (trim_clean e). done.
  - intros n1 n2 a1 a2 e1 e2 t1 t2 w Hne Htrim w'. unfold w', field_of.
    rewrite !addUser_users. split.
    + rewrite lookup_insert_ne, lookup_insert_eq by done. cbn [mbind option_bind].
      by rewrite with_sync_name.
    + rewrite lookup_insert_eq. cbn [mbind option_bind].
      rewrite with_sync_name. cbn. by rewrite Htrim.
Qed.

Lemma addUser_stores_trimmed_fields_witness :
  (wide_mendy ≠ "Mendy" ∧ trim wide_mendy = trim "Mendy")
  ∧ field_of
      (users (app (App.addUser "Mendy" 31 "b@x.com" "t1"
                     (App.addUser wide_mendy 30 "a@x.com" "t0" connected_world))))
      wide_mendy "name" = Some (VStr (trim wide_mendy))
  ∧ trim wide_mendy = "Mendy".
Proof.
  assert (wide_mendy ≠ "Mendy") as Hne by discriminate.
  assert (trim wide_mendy = trim "Mendy") as Htrim by reflexivity.
  split; [split; [exact Hne | exact Htrim]|]. split; [|reflexivity].
  apply (proj2 addUser_stores_trimmed_fields wide_mendy "Mendy" 30%Z 31%Z "a@x.com" "b@x.com"
           "t0" "t1" connected_world Hne Htrim).
Defined.

(** ** Connection manager: invariants of every trace *)

Section ManagerMoreFacts.
Import WebSocketManager.

Lemma attemptReconnect_manager w :
  let w' := Manager.attemptReconnect w in
  clientId (mgr w') = clientId (mgr w)
  ∧ (reconnectAttempts (mgr w) ≤ maxReconnectAttempts (mgr w) →
     reconnectAttempts (mgr w') ≤ maxReconnectAttempts (mgr w'))
  ∧ console (browser w') = console (browser w).
Proof. unfold Manager.attemptReconnect. case_decide; cbn; repeat split; lia. Qed.

Lemma connect_manager cb w :
  let w' := Manager.connect cb w in
  clientId (mgr w') = clientId (mgr w)
  ∧ maxReconnectAttempts (mgr w') = maxReconnectAttempts (mgr w)
  ∧ onMessageCallback (mgr w') = Some cb
  ∧ app w' = app w
  ∧ (reconnectAttempts (mgr w) ≤ maxReconnectAttempts (mgr w) →
     reconnectAttempts (mgr w') ≤ maxReconnectAttempts (mgr w')).
Proof.
  unfold Manager.connect. cbn [mgr on_mgr browser on_browser].
  destruct (accepts_url (browser w) _); [done|].
  set (w1 := on_browser _ _).
  destruct (attemptReconnect_frame w1) as (_ & Hcb & _ & Hmax & _ & Happ).
  destruct (attemptReconnect_manager w1) as (Hid & Hle & _).
  split; [by rewrite Hid|]. split; [by rewrite Hmax|]. split; [by rewrite Hcb|].
  split; [by rewrite Happ|]. exact Hle.
Qed.

(** One step never changes the client id or the maximum, and keeps the
    attempt counter within the maximum. *)
Lemma step_manager ev w :
  clientId (mgr (step ev w)) = clientId (mgr w)
  ∧ maxReconnectAttempts (mgr (step ev w)) = maxReconnectAttempts (mgr w)
  ∧ (reconnectAttempts (mgr w) ≤ maxReconnectAttempts (mgr w) →
     reconnectAttempts (mgr (step ev w)) ≤ maxReconnectAttempts (mgr (step ev w))).
Proof.
  destruct ev as [s | s e | s | s | t | cb | m now |]; cbn [step].
  - destruct (readyState_of s w) as [[]|]; try done. cbn. repeat split. lia.
  - destruct (readyState_of s w) as [[]|]; try done.
    unfold Manager.onmessage. destruct (JSON_parse e); [|done]. cbn.
    by destruct (onMessageCallback (mgr w)).
  - destruct (readyState_of s w) as [[]|]; done.
  - destruct (readyState_of s w) as [[]|]; try done; unfold Manager.onclose;
      set (w1 := on_browser _ _);
      destruct (attemptReconnect_frame w1) as (_ & _ & _ & Hmax & _);
      destruct (attemptReconnect_manager w1) as (Hid & Hle & _);
      (split; [by rewrite Hid|]); (split; [by rewrite Hmax|]); exact Hle.
  - destruct (timers (browser w) !! t); [|done].
    unfold Manager.ontimeout. cbn [mgr on_browser].
    destruct (onMessageCallback (mgr w)); [|done].
    set (w1 := on_browser _ _).
    destruct (connect_manager c w1) as (Hid & Hmax & _ & _ & Hle).
    split; [by rewrite Hid|]. split; [by rewrite Hmax|]. exact Hle.
  - destruct (connect_manager cb w) as (Hid & Hmax & _ & _ & Hle). done.
  - by rewrite send_mgr.
  - unfold Manager.disconnect. by destruct (socket (mgr w)).
Qed.

(** A step that is not a [connect()] call leaves the registered callback
    as it is. *)
Lemma step_callback ev w :
  is_connect_call ev = false →
  onMessageCallback (mgr (step ev w)) = onMessageCallback (mgr w).
Proof.
  intros Hev. destruct ev as [s | s e | s | s | t | cb | m now |]; cbn [step]; try done.
  - destruct (readyState_of s w) as [[]|]; done.
  - destruct (readyState_of s w) as [[]|]; try done.
    unfold Manager.onmessage. destruct (JSON_parse e); [|done]. cbn.
    destruct (onMessageCallback (mgr w)) eqn:Hcb; cbn; by rewrite ?Hcb.
  - destruct (readyState_of s w) as [[]|]; done.
  - destruct (readyState_of s w) as [[]|]; try done; unfold Manager.onclose;
      set (w1 := on_browser _ _);
      by rewrite (proj1 (proj2 (attemptReconnect_frame w1))).
  - destruct (timers (browser w) !! t); [|done].
    unfold Manager.ontimeout. cbn [mgr on_browser].
    destruct (onMessageCallback (mgr w)) eqn:Hcb; [|done].
    set (w1 := on_browser _ _).
    by destruct (connect_manager c w1) as (_ & _ & -> & _).
  - by rewrite send_mgr.
  - unfold Manager.disconnect. by destruct (socket (mgr w)).
Qed.

Lemma step_callback_registered ev w :
  is_Some (onMessageCallback (mgr w)) → is_Some (onMessageCallback (mgr (step ev w))).
Proof.
  intros Hsome. destruct (is_connect_call ev) eqn:Hev.
  - destruct ev; try done. cbn [step].
    destruct (connect_manager onMessage w) as (_ & _ & -> & _). by eexists.
  - by rewrite step_callback.
Qed.

(** The component state changes only in the [onmessage] handler. *)
Lemma step_app ev w :
  app (step ev w) ≠ app w →
  ∃ s msg cb, ev = EvMessage s (JSON_stringify msg)
              ∧ readyState_of s w = Some OPEN
              ∧ onMessageCallback (mgr w) = Some cb
              ∧ app (step ev w) = cb msg (app w).
Proof.
  destruct ev as [s | s e | s | s | t | cb | m now |]; cbn [step].
  - destruct (readyState_of s w) as [[]|]; done.
  - destruct (readyState_of s w) as [[]|] eqn:Hr; try done.
    destruct e as [msg|raw]; [|done]. unfold Manager.onmessage. cbn.
    destruct (onMessageCallback (mgr w)) as [cb|] eqn:Hcb; [|done].
    intros _. by exists s, msg, cb.
  - destruct (readyState_of s w) as [[]|]; done.
  - destruct (readyState_of s w) as [[]|]; try done; unfold Manager.onclose;
      set (w1 := on_browser _ _);
      by rewrite (proj2 (proj2 (proj2 (proj2 (proj2 (attemptReconnect_frame w1)))))).
  - destruct (timers (browser w) !! t); [|done].
    unfold Manager.ontimeout. cbn [mgr on_browser].
    destruct (onMessageCallback (mgr w)); [|done].
    set (w1 := on_browser _ _).
    by destruct (connect_manager c w1) as (_ & _ & _ & -> & _).
  - by destruct (connect_manager cb w) as (_ & _ & _ & -> & _).
  - by rewrite send_app.
  - unfold Manager.disconnect. by destruct (socket (mgr w)).
Qed.

End ManagerMoreFacts.

(** X7. Whatever happens -- sockets opening, closing and failing,
    timeouts firing, [connect], [send] and [disconnect] being called in
    any order -- the attempt counter stays within the maximum, and the
    maximum and the client id never change. *)
Theorem reconnectAttempts_stays_within_maximum (evs : list Event) (w : World) :
  WebSocketManager.reconnectAttempts (mgr w) ≤ WebSocketManager.maxReconnectAttempts (mgr w) →
  WebSocketManager.reconnectAttempts (mgr (run evs w))
  ≤ WebSocketManager.maxReconnectAttempts (mgr (run evs w))
  ∧ WebSocketManager.maxReconnectAttempts (mgr (run evs w))
    = WebSocketManager.maxReconnectAttempts (mgr w)
  ∧ WebSocketManager.clientId (mgr (run evs w)) = WebSocketManager.clientId (mgr w).
Proof.
  revert w. induction evs as [|ev evs IH]; intros w Hle; [done|].
  change (run (ev :: evs) w) with (run evs (step ev w)).
  destruct (step_manager ev w) as (Hid & Hmax & Hstep).
  destruct (IH (step ev w) (Hstep Hle)) as (? & ? & ?).
  split; [done|]. split; congruence.
Qed.

Lemma reconnectAttempts_stays_within_maximum_witness :
  WebSocketManager.reconnectAttempts (mgr mounted)
  ≤ WebSocketManager.maxReconnectAttempts (mgr mounted)
  ∧ WebSocketManager.reconnectAttempts (mgr (run failing_loop mounted))
    ≤ WebSocketManager.maxReconnectAttempts (mgr (run failing_loop mounted)).
Proof.
  assert (WebSocketManager.reconnectAttempts (mgr mounted)
          ≤ WebSocketManager.maxReconnectAttempts (mgr mounted)) as Hle
    by (vm_compute; lia).
  split; [exact Hle|].
  apply (reconnectAttempts_stays_within_maximum failing_loop mounted Hle).
Defined.

(** X8. Once a callback is registered it stays registered: no step of
    any kind clears it, and without a further [connect()] call it is the
    same callback after any trace, [disconnect()] included. *)
Theorem onMessageCallback_is_never_cleared (evs : list Event) (w : World) :
  (is_Some (WebSocketManager.onMessageCallback (mgr w)) →
   is_Some (WebSocketManager.onMessageCallback (mgr (run evs w))))
  ∧ (forallb (λ ev, negb (is_connect_call ev)) evs = true →
     WebSocketManager.onMessageCallback (mgr (run evs w))
     = WebSocketManager.onMessageCallback (mgr w)).
Proof.
  revert w. induction evs as [|ev evs IH]; intros w; [done|].
  change (run (ev :: evs) w) with (run evs (step ev w)).
  destruct (IH (step ev w)) as [IH1 IH2]. split.
  - intros Hsome. by apply IH1, step_callback_registered.
  - intros Hall. cbn in Hall. apply andb_prop in Hall as [Hev Hall].
    apply negb_true_iff in Hev. rewrite IH2 by done. by apply step_callback.
Qed.

Lemma onMessageCallback_is_never_cleared_witness :
  is_Some (WebSocketManager.onMessageCallback (mgr connected_world))
  ∧ is_Some (WebSocketManager.onMessageCallback
               (mgr (run [CallDisconnect; EvClose 0; CallDisconnect] connected_world))).
Proof.
  assert (is_Some (WebSocketManager.onMessageCallback (mgr connected_world))) as Hsome
    by (eexists; reflexivity).
  split; [exact Hsome|].
  apply (proj1 (onMessageCallback_is_never_cleared
                  [CallDisconnect; EvClose 0; CallDisconnect] connected_world) Hsome).
Defined.

(** X9. The component state changes only when a frame that parses
    arrives on an open socket while a callback is registered, and then it
    becomes what the callback makes of it; opening, closing, errors,
    timeouts, reconnection, [send] and [disconnect] keep the users mapping
    as it is. *)
Theorem only_inbound_messages_change_the_state (ev : Event) (w : World) :
  app (step ev w) ≠ app w →
  ∃ s msg cb, ev = EvMessage s (JSON_stringify msg)
              ∧ readyState_of s w = Some OPEN
              ∧ WebSocketManager.onMessageCallback (mgr w) = Some cb
              ∧ app (step ev w) = cb msg (app w).
Proof. apply step_app. Qed.

Lemma only_inbound_messages_change_the_state_witness :
  app (step (EvMessage 0 (add_frame "Mendy" 5)) connected_world) ≠ app connected_world
  ∧ ∃ s msg cb, EvMessage 0 (add_frame "Mendy" 5) = EvMessage s (JSON_stringify msg)
                ∧ readyState_of s connected_world = Some OPEN
                ∧ WebSocketManager.onMessageCallback (mgr connected_world) = Some cb
                ∧ app (step (EvMessage 0 (add_frame "Mendy" 5)) connected_world)
                  = cb msg (app connected_world).
Proof.
  assert (app (step (EvMessage 0 (add_frame "Mendy" 5)) connected_world)
          ≠ app connected_world) as Hne.
  { intros H. apply (f_equal connectionStatus) in H. vm_compute in H. discriminate H. }
  split; [exact Hne|].
  apply (only_inbound_messages_change_the_state _ _ Hne).
Defined.

Section TraceFacts.
Import WebSocketManager.

Lemma update_socket_lookup i f b j sk' :
  sockets (update_socket i f b) !! j = Some sk' →
  ∃ sk, sockets b !! j = Some sk ∧ (sk' = sk ∨ (j = i ∧ sk' = f sk)).
Proof.
  unfold update_socket. destruct (sockets b !! i) as [s|] eqn:Hi; [|eauto].
  cbn [sockets set_sockets]. destruct (decide (i = j)) as [->|Hne].
  - rewrite list_lookup_insert_eq by (by eapply lookup_lt_Some).
    intros [= <-]. eauto.
  - rewrite list_lookup_insert_ne by done. eauto.
Qed.


Lemma connect_sockets cb w :
  sockets (browser (Manager.connect cb w)) = sockets (browser w)
  ∨ sockets (browser (Manager.connect cb w))
    = (sockets (browser w)
         ++ [{| url := Manager.endpoint (mgr w); readyState := CONNECTING; sent := [] |}])%list.
Proof.
  unfold Manager.connect. cbn [mgr on_mgr browser on_browser].
  destruct (accepts_url (browser w) _); [by right|]. left.
  set (w1 := on_browser _ _).
  by rewrite (proj1 (proj2 (proj2 (proj2 (proj2 (attemptReconnect_frame w1)))))).
Qed.

(** Where a socket of the next state comes from: it is a socket of the
    current state with the same URL and the same frames, or the same
    frames and one more stamped by the manager; or it is new, opened for
    the manager's endpoint, with no frame yet. *)
Lemma step_sockets ev w j sk' :
  sockets (browser (step ev w)) !! j = Some sk' →
  (∃ sk, sockets (browser w) !! j = Some sk ∧ url sk' = url sk
         ∧ (sent sk' = sent sk
            ∨ ∃ m now, ev = CallSend m now
                       ∧ sent sk'
                       = (sent sk
                            ++ [JSON_stringify
                                  (stamp m (clientVersion (mgr w)) (clientId (mgr w)) now)])%list))
  ∨ (url sk' = Manager.endpoint (mgr w) ∧ sent sk' = []).
Proof.
  assert (∀ l : list WebSocket, l !! j = Some sk' →
            l = sockets (browser w)
            ∨ l = (sockets (browser w)
                     ++ [{| url := Manager.endpoint (mgr w);
                            readyState := CONNECTING; sent := [] |}])%list →
            (∃ sk, sockets (browser w) !! j = Some sk ∧ url sk' = url sk
                   ∧ (sent sk' = sent sk
                      ∨ ∃ m now, ev = CallSend m now
                                 ∧ sent sk'
                                 = (sent sk
                                      ++ [JSON_stringify
                                            (stamp m (clientVersion (mgr w))
                                               (clientId (mgr w)) now)])%list))
            ∨ (url sk' = Manager.endpoint (mgr w) ∧ sent sk' = [])) as Hgrow.
  { intros l Hl [->| ->]; [left; eauto|].
    apply lookup_app_Some in Hl as [Hl|[_ Hl]]; [left; eauto|].
    right. destruct (j - length (sockets (browser w))) as [|n]; [|done].
    by inversion Hl. }
  assert (∀ i f, (∀ sk, url (f sk) = url sk ∧ sent (f sk) = sent sk) →
            sockets (update_socket i f (browser w)) !! j = Some sk' →
            ∃ sk, sockets (browser w) !! j = Some sk ∧ url sk' = url sk
                  ∧ sent sk' = sent sk) as Hsame.
  { intros i f Hf Hl. apply update_socket_lookup in Hl as (sk & Hsk & [->|[_ ->]]).
    - eauto.
    - destruct (Hf sk). eauto. }
  destruct ev as [s | s e | s | s | t | cb | m now |]; cbn [step].
  - destruct (readyState_of s w) as [[]|]; try (intros Hl; left; by eauto).
    cbn. intros Hl. left.
    destruct (Hsame s (set_readyState OPEN)) as (sk & ? & ? & ?); eauto.
  - destruct (readyState_of s w) as [[]|]; try (intros Hl; left; by eauto).
    unfold Manager.onmessage. destruct (JSON_parse e); [|intros Hl; left; by eauto].
    cbn. destruct (onMessageCallback (mgr w)); intros Hl; left; eauto.
  - destruct (readyState_of s w) as [[]|]; intros Hl; left; eauto.
  - destruct (readyState_of s w) as [[]|]; try (intros Hl; left; by eauto);
      unfold Manager.onclose; set (w1 := on_browser _ _);
      rewrite (proj1 (proj2 (proj2 (proj2 (proj2 (attemptReconnect_frame w1))))));
      cbn; intros Hl; left;
      destruct (Hsame s (set_readyState CLOSED)) as (sk & ? & ? & ?); eauto.
  - destruct (timers (browser w) !! t); [|intros Hl; left; by eauto].
    unfold Manager.ontimeout. cbn [mgr on_browser].
    destruct (onMessageCallback (mgr w)); [|intros Hl; left; by eauto].
    set (w1 := on_browser _ _). intros Hl. apply (Hgrow _ Hl).
    apply (connect_sockets c w1).
  - intros Hl. apply (Hgrow _ Hl). apply connect_sockets.
  - unfold Manager.send. destruct (Manager.open_socket w) as [i|]; cbn.
    + intros Hl. left. apply update_socket_lookup in Hl as (sk & Hsk & [->|[_ ->]]).
      * eauto.
      * exists sk. split; [done|]. split; [done|]. right. by exists m, now.
    + intros Hl. left. eauto.
  - unfold Manager.disconnect. destruct (socket (mgr w)) as [i|]; [|intros Hl; left; by eauto].
    cbn. intros Hl. left.
    destruct (Hsame i close) as (sk & ? & ? & ?); eauto.
    intros sk. unfold close. by destruct (readyState sk).
Qed.

Lemma run_sockets_target evs w u :
  Manager.endpoint (mgr w) = u → sockets_target u w → sockets_target u (run evs w).
Proof.
  revert w. induction evs as [|ev evs IH]; intros w Hu Hinv; [done|].
  change (run (ev :: evs) w) with (run evs (step ev w)). apply IH.
  - unfold Manager.endpoint in *. by rewrite (proj1 (step_manager ev w)).
  - intros j sk' Hl. apply step_sockets in Hl as [(sk & Hsk & -> & _)|[-> _]]; [|done].
    by apply (Hinv j).
Qed.

Lemma run_frames_stamped evs w cid :
  clientId (mgr w) = cid → frames_stamped cid w → frames_stamped cid (run evs w).
Proof.
  revert w. induction evs as [|ev evs IH]; intros w Hid Hinv; [done|].
  change (run (ev :: evs) w) with (run evs (step ev w)). apply IH.
  - by rewrite (proj1 (step_manager ev w)).
  - intros j sk' f Hl Hin.
    apply step_sockets in Hl as [(sk & Hsk & _ & [Hs|(m & now & _ & Hs)])|[_ Hs]];
      rewrite Hs in Hin.
    + by apply (Hinv j sk).
    + apply elem_of_app in Hin as [Hin|Hin]; [by apply (Hinv j sk)|].
      apply list_elem_of_singleton in Hin as ->. eexists. split; [done|].
      cbn. by rewrite Hid.
    + by apply elem_of_nil in Hin.
Qed.

Lemma mount_sockets cid b j sk :
  sockets b = [] → sockets (browser (App.mount cid b)) !! j = Some sk →
  url sk = ("ws://localhost:8000/ws/" ++ cid)%string ∧ sent sk = [].
Proof.
  intros Hb. unfold App.mount.
  destruct (connect_sockets Reconciler.handleMessage
              {| mgr := new cid; browser := b; app := initialApp |}) as [-> | ->];
    cbn [browser mgr]; rewrite Hb; [done|].
  destruct j; [|done]. cbn. by intros [= <-].
Qed.

Lemma mount_clientId cid b : clientId (mgr (App.mount cid b)) = cid.
Proof.
  unfold App.mount.
  by rewrite (proj1 (connect_manager Reconciler.handleMessage
                       {| mgr := new cid; browser := b; app := initialApp |})).
Qed.

End TraceFacts.

(** X10. From the moment the component is mounted in a browser without
    sockets, every socket that ever exists -- the first one and every
    reconnection -- was opened for the one endpoint
    [ws://localhost:8000/ws/<clientId>] of the client id given at mount. *)
Theorem every_socket_targets_the_session_endpoint
  (cid : string) (b : Browser) (evs : list Event) (j : nat) (sk : WebSocket) :
  sockets b = [] →
  sockets (browser (run evs (App.mount cid b))) !! j = Some sk →
  url sk = ("ws://localhost:8000/ws/" ++ cid)%string.
Proof.
  intros Hb. apply (run_sockets_target evs (App.mount cid b)).
  - unfold Manager.endpoint. by rewrite mount_clientId.
  - intros i s Hs. by apply (mount_sockets cid b i s Hb) in Hs as [? _].
Qed.

Lemma every_socket_targets_the_session_endpoint_witness :
  (sockets fresh_browser = []
   ∧ sockets (browser (run failing_loop (App.mount "c1" fresh_browser))) !! 5
     = Some {| url := "ws://localhost:8000/ws/c1"; readyState := CLOSED; sent := [] |})
  ∧ url {| url := "ws://localhost:8000/ws/c1"; readyState := CLOSED; sent := [] |}
    = ("ws://localhost:8000/ws/" ++ "c1")%string.
Proof.
  split; [split; reflexivity|].
  apply (every_socket_targets_the_session_endpoint "c1" fresh_browser failing_loop 5);
    reflexivity.
Defined.

(** X11. From the moment the component is mounted in a browser without
    sockets, every frame ever handed to a socket is the serialisation of a
    message stamped with the client id given at mount. *)
Theorem every_outbound_frame_carries_the_client_id
  (cid : string) (b : Browser) (evs : list Event) (j : nat) (sk : WebSocket) (f : Frame) :
  sockets b = [] →
  sockets (browser (run evs (App.mount cid b))) !! j = Some sk →
  f ∈ sent sk →
  stamped_by cid f.
Proof.
  intros Hb. apply (run_frames_stamped evs (App.mount cid b)).
  - apply mount_clientId.
  - intros i s g Hs Hin. apply (mount_sockets cid b i s Hb) in Hs as [_ Hs].
    rewrite Hs in Hin. by apply elem_of_nil in Hin.
Qed.

Lemma every_outbound_frame_carries_the_client_id_witness :
  (sockets fresh_browser = []
   ∧ sockets (browser (run [EvOpen 0; CallSend (Reconciler.deleteUser_message "Mendy") "t0"]
                         (App.mount "c1" fresh_browser))) !! 0
     = Some {| url := "ws://localhost:8000/ws/c1"; readyState := OPEN;
               sent := [JSON_stringify (stamp (Reconciler.deleteUser_message "Mendy") 0 "c1" "t0")] |}
   ∧ JSON_stringify (stamp (Reconciler.deleteUser_message "Mendy") 0 "c1" "t0")
     ∈ [JSON_stringify (stamp (Reconciler.deleteUser_message "Mendy") 0 "c1" "t0")])
  ∧ stamped_by "c1" (JSON_stringify (stamp (Reconciler.deleteUser_message "Mendy") 0 "c1" "t0")).
Proof.
  assert (JSON_stringify (stamp (Reconciler.deleteUser_message "Mendy") 0 "c1" "t0")
          ∈ [JSON_stringify (stamp (Reconciler.deleteUser_message "Mendy") 0 "c1" "t0")])
    as Hin by (by left).
  split; [split; [reflexivity|split; [reflexivity|exact Hin]]|].
  apply (every_outbound_frame_carries_the_client_id "c1" fresh_browser
           [EvOpen 0; CallSend (Reconciler.deleteUser_message "Mendy") "t0"] 0
           {| url := "ws://localhost:8000/ws/c1"; readyState := OPEN;
              sent := [JSON_stringify (stamp (Reconciler.deleteUser_message "Mendy") 0 "c1" "t0")] |});
    [reflexivity | reflexivity | exact Hin].
Defined.

Section SendReceiveFacts.
Import WebSocketManager.



Lemma run_sends_closed (msgs : list (Message * string)) :
  ∀ w : World,
    socket (mgr w) = None →
    sockets (browser (run (sends msgs) w)) = sockets (browser w)
    ∧ timers (browser (run (sends msgs) w)) = timers (browser w)
    ∧ console (browser (run (sends msgs) w))
      = (console (browser w)
           ++ replicate (length msgs) (console_error "WebSocket is not connected"))%list
    ∧ mgr (run (sends msgs) w) = mgr w ∧ app (run (sends msgs) w) = app w.
Proof.
  induction msgs as [|[m now] msgs IH]; intros w Hnone.
  - cbn. by rewrite app_nil_r.
  - change (run (sends ((m, now) :: msgs)) w)
      with (run (sends msgs) (step (CallSend m now) w)).
    assert (Manager.open_socket w = None) as Ho
      by (unfold Manager.open_socket; by rewrite Hnone).
    assert (step (CallSend m now) w
            = on_browser (log (console_error "WebSocket is not connected")) w) as ->
      by (cbn [step]; unfold Manager.send; by rewrite Ho).
    destruct (IH (on_browser (log (console_error "WebSocket is not connected")) w) Hnone)
      as (Hs & Ht & Hc & Hm & Ha).
    rewrite Hs, Ht, Hc, Hm, Ha. repeat split. cbn. by rewrite <- app_assoc.
Qed.

Lemma step_arrival (s : nat) (f : Frame) (cb : Callback) (w : World) :
  readyState_of s w = Some OPEN → onMessageCallback (mgr w) = Some cb →
  let w' := step (EvMessage s f) w in
  app w' = deliver cb (app w) f
  ∧ readyState_of s w' = Some OPEN
  ∧ onMessageCallback (mgr w') = Some cb
  ∧ browser w' = browser w.
Proof.
  intros Hr Hcb w'. unfold w', deliver. destruct f as [msg|raw].
  - rewrite (step_message_delivered s msg cb w Hr Hcb). cbn. by rewrite Hcb.
  - cbn [step]. rewrite Hr. cbn. by rewrite Hr.
Qed.

End SendReceiveFacts.



(** X13. Frames arriving on an open socket reach the registered callback
    once each and in arrival order: the component state after the run is
    the callback folded over the frames that parse, the frames that do not
    parse being skipped; the socket stays open and the callback
    registered. *)
Theorem inbound_frames_reach_the_callback_in_order
  (frames : list Frame) (s : nat) (cb : Callback) (w : World) :
  readyState_of s w = Some OPEN →
  WebSocketManager.onMessageCallback (mgr w) = Some cb →
  app (run (arrivals s frames) w) = foldl (deliver cb) (app w) frames
  ∧ readyState_of s (run (arrivals s frames) w) = Some OPEN
  ∧ WebSocketManager.onMessageCallback (mgr (run (arrivals s frames) w)) = Some cb.
Proof.
  revert w. induction frames as [|f frames IH]; intros w Hr Hcb; [done|].
  change (run (arrivals s (f :: frames)) w)
    with (run (arrivals s frames) (step (EvMessage s f) w)).
  destruct (step_arrival s f cb w Hr Hcb) as (Ha & Hr' & Hcb' & _).
  destruct (IH _ Hr' Hcb') as (-> & ? & ?). by rewrite Ha.
Qed.

Lemma inbound_frames_reach_the_callback_in_order_witness :
  (readyState_of 0 connected_world = Some OPEN
   ∧ WebSocketManager.onMessageCallback (mgr connected_world) = Some Reconciler.handleMessage)
  ∧ app (run (arrivals 0 [add_frame "Mendy" 1; Malformed "{"; add_frame "Levi" 2])
           connected_world)
    = foldl (deliver Reconciler.handleMessage) (app connected_world)
        [add_frame "Mendy" 1; Malformed "{"; add_frame "Levi" 2].
Proof.
  split; [split; reflexivity|].
  apply (inbound_frames_reach_the_callback_in_order
           [add_frame "Mendy" 1; Malformed "{"; add_frame "Levi" 2] 0
           Reconciler.handleMessage connected_world); reflexivity.
Defined.

(** X14. After [disconnect()] the manager holds no socket, so [send]
    transmits nothing until [connect] is called again: a run of [send]
    calls leaves every socket and every pending timeout as it is, writes
    one [console.error] line per call, and changes neither the manager nor
    the component state. *)
Theorem sends_after_disconnect_are_dropped (msgs : list (Message * string)) (w : World) :
  Manager.open_socket (Manager.disconnect w) = None
  ∧ sockets (browser (run (sends msgs) (Manager.disconnect w)))
    = sockets (browser (Manager.disconnect w))
  ∧ timers (browser (run (sends msgs) (Manager.disconnect w)))
    = timers (browser (Manager.disconnect w))
  ∧ console (browser (run (sends msgs) (Manager.disconnect w)))
    = (console (browser (Manager.disconnect w))
         ++ replicate (length msgs) (console_error "WebSocket is not connected"))%list
  ∧ mgr (run (sends msgs) (Manager.disconnect w)) = mgr (Manager.disconnect w)
  ∧ app (run (sends msgs) (Manager.disconnect w)) = app w.
Proof.
  assert (WebSocketManager.socket (mgr (Manager.disconnect w)) = None) as Hnone.
  { unfold Manager.disconnect.
    destruct (WebSocketManager.socket (mgr w)) eqn:Hs; [done|by rewrite Hs]. }
  assert (app (Manager.disconnect w) = app w) as Happ.
  { unfold Manager.disconnect. by destruct (WebSocketManager.socket (mgr w)). }
  destruct (run_sends_closed msgs (Manager.disconnect w) Hnone) as (? & ? & ? & ? & Ha).
  split; [unfold Manager.open_socket; by rewrite Hnone|].
  repeat split; try done. by rewrite Ha.
Qed.

Section StatusFacts.
Import WebSocketManager Reconciler.

Lemma call_app_mgr (i : Rounds.Intent) (now : string) (w : World) :
  app (Rounds.call i now w) = setUsers (Rounds.optimistic i) (app w)
  ∧ mgr (Rounds.call i now w) = mgr w.
Proof. destruct i; cbn [Rounds.call]; unfold App.addUser, App.editUser, App.deleteUser;
  by rewrite send_app, send_mgr. Qed.

(** One action of the component, with [handleMessage] registered: the
    callback stays, and the status stays or becomes [connected]. *)
Lemma act_status (a : Action) (w : World) :
  onMessageCallback (mgr w) = Some handleMessage →
  delivers_connect a = false →
  onMessageCallback (mgr (act a w)) = Some handleMessage
  ∧ (connectionStatus (app (act a w)) = connectionStatus (app w)
     ∨ connectionStatus (app (act a w)) = connected).
Proof.
  intros Hcb Ha. destruct a as [ev|i now]; cbn [act].
  - cbn in Ha. split; [by rewrite step_callback|].
    destruct ev as [s | s e | s | s | t | cb | m now |]; try done; cbn [step].
    + destruct (readyState_of s w) as [[]|]; by left.
    + destruct (readyState_of s w) as [[]|] eqn:Hr; try by left.
      destruct (step_arrival s e handleMessage w Hr Hcb) as (Happ & _).
      cbn [step] in Happ. rewrite Hr in Happ. rewrite Happ. unfold deliver.
      destruct (JSON_parse e); [right; apply handleMessage_status | by left].
    + destruct (readyState_of s w) as [[]|]; by left.
    + destruct (readyState_of s w) as [[]|]; try (by left); unfold Manager.onclose;
        set (w1 := on_browser _ _);
        rewrite (proj2 (proj2 (proj2 (proj2 (proj2 (attemptReconnect_frame w1))))));
        by left.
    + destruct (timers (browser w) !! t); [|by left].
      unfold Manager.ontimeout. cbn [mgr on_browser]. rewrite Hcb.
      set (w1 := on_browser _ _).
      destruct (connect_manager handleMessage w1) as (_ & _ & _ & -> & _). by left.
    + rewrite send_app. by left.
    + unfold Manager.disconnect. destruct (socket (mgr w)); by left.
  - destruct (call_app_mgr i now w) as [-> ->]. split; [done|]. by left.
Qed.

End StatusFacts.

(** X15. With [handleMessage] registered, which is how the component
    mounts, the connection status shown never becomes [disconnected],
    whatever the browser delivers and whatever the user does: a status of
    [connected] stays [connected] through closes, errors, failed
    reconnections and [disconnect()]. *)
Theorem connectionStatus_never_reports_a_disconnect (l : list Action) (w : World) :
  WebSocketManager.onMessageCallback (mgr w) = Some Reconciler.handleMessage →
  forallb (λ a, negb (delivers_connect a)) l = true →
  (connectionStatus (app w) ≠ disconnected →
   connectionStatus (app (acts l w)) ≠ disconnected)
  ∧ (connectionStatus (app w) = connected →
     connectionStatus (app (acts l w)) = connected).
Proof.
  revert w. induction l as [|a l IH]; intros w Hcb Hall; [done|].
  cbn in Hall. apply andb_prop in Hall as [Ha Hall]. apply negb_true_iff in Ha.
  change (acts (a :: l) w) with (acts l (act a w)).
  destruct (act_status a w Hcb Ha) as (Hcb' & Hst).
  destruct (IH (act a w) Hcb' Hall) as [IH1 IH2]. split.
  - intros Hne. apply IH1. destruct Hst as [-> | ->]; done.
  - intros Hc. apply IH2. destruct Hst as [-> | ->]; done.
Qed.

Lemma connectionStatus_never_reports_a_disconnect_witness :
  (WebSocketManager.onMessageCallback (mgr mounted) = Some Reconciler.handleMessage
   ∧ forallb (λ a, negb (delivers_connect a))
       [Deliver (EvOpen 0); Deliver (EvMessage 0 (add_frame "Mendy" 1));
        Deliver (EvClose 0); Intend (Rounds.IDelete "Mendy") "t0";
        Deliver CallDisconnect] = true
   ∧ connectionStatus (app mounted) ≠ disconnected)
  ∧ connectionStatus
      (app (acts [Deliver (EvOpen 0); Deliver (EvMessage 0 (add_frame "Mendy" 1));
                  Deliver (EvClose 0); Intend (Rounds.IDelete "Mendy") "t0";
                  Deliver CallDisconnect] mounted)) ≠ disconnected.
Proof.
  assert (connectionStatus (app mounted) ≠ disconnected) as Hne by discriminate.
  split; [split; [reflexivity | split; [reflexivity | exact Hne]]|].
  apply (proj1 (connectionStatus_never_reports_a_disconnect
                  [Deliver (EvOpen 0); Deliver (EvMessage 0 (add_frame "Mendy" 1));
                   Deliver (EvClose 0); Intend (Rounds.IDelete "Mendy") "t0";
                   Deliver CallDisconnect] mounted eq_refl eq_refl) Hne).
Defined.

(** ** Indexed cache: single operations *)

Section SetFacts.


Lemma NoDup_Set_add (k : string) (s : list string) : NoDup s → NoDup (Set_add k s).
Proof.
  intros Hs. unfold Set_add. case_decide; [done|].
  apply NoDup_app. split; [done|]. split; [|apply NoDup_singleton].
  intros x Hx Hk. apply list_elem_of_singleton in Hk. by subst.
Qed.

Lemma NoDup_Set_of (l : list string) : NoDup (Set_of l).
Proof.
  unfold Set_of. assert (NoDup ([] : list string)) as Hnil by constructor.
  revert Hnil. generalize ([] : list string). induction l as [|k l IH]; intros acc Hacc; [done|].
  cbn. by apply IH, NoDup_Set_add.
Qed.

End SetFacts.

Section CacheMoreFacts.
Import LocalStorage LocalStorageWithIndex.

Context {T : Type}.
Variable stringify : T → string.
Variable parse : string → option T.
Variable stringify_index : list string → string.
Variable parse_index : string → option (list string).
Variable prefix : string.

Local Abbreviation fullKey := (getFullKey prefix).
Local Abbreviation ixKey := (indexKey prefix).
Local Abbreviation getIndex := (getIndex parse_index prefix).
Local Abbreviation setItem := (setItem stringify stringify_index parse_index prefix).
Local Abbreviation removeItem := (removeItem stringify_index parse_index prefix).
Local Abbreviation getItem := (getItem parse prefix).
Local Abbreviation getAllItems := (getAllItems parse parse_index prefix).
Local Abbreviation clearAll := (clearAll parse_index prefix).
Local Abbreviation perform := (perform stringify stringify_index parse_index prefix).
Local Abbreviation performAll := (performAll stringify stringify_index parse_index prefix).

(** Reading the index looks at the index key only and stores nothing. *)
Lemma getIndex_snd st : snd (getIndex st) = st.
Proof using Type.
  unfold LocalStorageWithIndex.getIndex, bind, LocalStorage.getItem.
  destruct (st !! ixKey) as [[|c text]|]; try done.
  by destruct (parse_index (String c text)).
Qed.

Lemma getIndex_congr st1 st2 :
  st1 !! ixKey = st2 !! ixKey → fst (getIndex st1) = fst (getIndex st2).
Proof using Type.
  intros Heq. unfold LocalStorageWithIndex.getIndex, bind, LocalStorage.getItem.
  rewrite Heq. destruct (st2 !! ixKey) as [[|c text]|]; try done.
  by destruct (parse_index (String c text)).
Qed.

Lemma getIndex_pair st : getIndex st = (fst (getIndex st), st).
Proof using Type. rewrite <- (getIndex_snd st) at 3. by destruct (getIndex st). Qed.

Lemma getIndex_written st l :
  (∀ l, parse_index (stringify_index l) = Some l) →
  (∀ l, stringify_index l ≠ EmptyString) →
  getIndex (<[ixKey := stringify_index l]> st) = (Some l, <[ixKey := stringify_index l]> st).
Proof using Type.
  intros Hrt Hne. unfold LocalStorageWithIndex.getIndex, bind, LocalStorage.getItem.
  rewrite lookup_insert_eq. destruct (stringify_index l) eqn:E.
  - by apply Hne in E.
  - by rewrite <- E, Hrt.
Qed.

Lemma getIndex_corrupt st text :
  st !! ixKey = Some text → text ≠ EmptyString → parse_index text = None →
  getIndex st = (None, st).
Proof using Type.
  intros Hst Hne Hp. unfold LocalStorageWithIndex.getIndex, bind, LocalStorage.getItem.
  rewrite Hst. destruct text; [done|]. by rewrite Hp.
Qed.

(** What [setItem] and [removeItem] leave in the storage, according to
    what reading the index gives. *)
Lemma setItem_eval st id v :
  setItem id v st
  = match fst (getIndex st) with
    | Some index =>
        (Some tt,
         <[ixKey := stringify_index (Set_add (fullKey id) (Set_of index))]>
           (<[fullKey id := stringify v]> st))
    | None => (None, <[fullKey id := stringify v]> st)
    end.
Proof using Type.
  unfold LocalStorageWithIndex.setItem, bind at 1, LocalStorage.setItem at 1.
  unfold bind at 1. rewrite getIndex_pair.
  rewrite (getIndex_congr _ st)
    by (apply lookup_insert_ne, getFullKey_not_indexKey).
  by destruct (fst (getIndex st)).
Qed.

Lemma removeItem_eval st id :
  removeItem id st
  = match fst (getIndex st) with
    | Some index =>
        (Some tt,
         <[ixKey := stringify_index (Set_delete (fullKey id) (Set_of index))]>
           (delete (fullKey id) st))
    | None => (None, delete (fullKey id) st)
    end.
Proof using Type.
  unfold LocalStorageWithIndex.removeItem, bind at 1, LocalStorage.removeItem at 1.
  unfold bind at 1. rewrite getIndex_pair.
  rewrite (getIndex_congr _ st)
    by (apply lookup_delete_ne, getFullKey_not_indexKey).
  by destruct (fst (getIndex st)).
Qed.

Lemma getItem_eval st id :
  getItem id st
  = (match st !! fullKey id with
     | None | Some EmptyString => Some None
     | Some text => Some <$> parse text
     end, st).
Proof using Type.
  unfold LocalStorageWithIndex.getItem, bind, LocalStorage.getItem.
  destruct (st !! fullKey id) as [[|c text]|]; try done.
  by destruct (parse (String c text)).
Qed.

Lemma getItem_congr st1 st2 id :
  st1 !! fullKey id = st2 !! fullKey id → fst (getItem id st1) = fst (getItem id st2).
Proof using Type. intros Heq. by rewrite !getItem_eval, Heq. Qed.

(** An operation changes the storage at two keys at most. *)
Lemma perform_frame op st k :
  k ≠ ixKey → k ≠ fullKey (op_id op) → snd (perform op st) !! k = st !! k.
Proof using Type.
  intros Hix Hfk. destruct op as [id v | id | id]; cbn [LocalStorageWithIndex.perform op_id] in *.
  - rewrite setItem_eval. destruct (fst (getIndex st)); cbn;
      by rewrite ?lookup_insert_ne by done.
  - rewrite removeItem_eval. destruct (fst (getIndex st)); cbn;
      by rewrite ?lookup_insert_ne, ?lookup_delete_ne by done.
  - cbn. by rewrite lookup_delete_ne.
Qed.

Lemma performAll_frame ops st k :
  k ≠ ixKey → (∀ id, k ≠ fullKey id) → snd (performAll ops st) !! k = st !! k.
Proof using Type.
  intros Hix Hfk. revert st. induction ops as [|op ops IH]; intros st; [done|].
  cbn [LocalStorageWithIndex.performAll]. unfold bind.
  pose proof (perform_frame op st k Hix (Hfk _)) as Hop.
  destruct (perform op st) as [[[]|] st1]; cbn in *; [by rewrite IH|done].
Qed.

Lemma collect_snd index items st : snd (collect parse index items st) = st.
Proof using Type.
  revert items. induction index as [|key rest IH]; intros items; [done|].
  cbn [collect]. unfold bind at 1, LocalStorage.getItem at 1.
  destruct (st !! key) as [text|]; [|apply IH].
  unfold bind at 1. destruct (parse text); cbn; [apply IH|done].
Qed.

End CacheMoreFacts.

(** X16. Round trip of one item: when the index can be read, [setItem]
    ends without an exception and [getItem] of the same id then returns
    the value that was set (for a value whose text is not empty and parses
    back); what [getItem] returns for every other id is unchanged. *)
Theorem getItem_returns_what_setItem_stored
  {T : Type} (stringify : T → string) (parse : string → option T)
  (stringify_index : list string → string) (parse_index : string → option (list string))
  (prefix : string) (st : gmap string string) (index : list string) (id : string) (v : T) :
  parse (stringify v) = Some v → stringify v ≠ EmptyString →
  fst (LocalStorageWithIndex.getIndex parse_index prefix st) = Some index →
  ∃ st',
    LocalStorageWithIndex.setItem stringify stringify_index parse_index prefix id v st
    = (Some tt, st')
    ∧ LocalStorageWithIndex.getItem parse prefix id st' = (Some (Some v), st')
    ∧ ∀ id', id' ≠ id →
             fst (LocalStorageWithIndex.getItem parse prefix id' st')
             = fst (LocalStorageWithIndex.getItem parse prefix id' st).
Proof.
  intros Hrt Hne Hix. eexists. split; [by rewrite setItem_eval, Hix|]. split.
  - rewrite getItem_eval.
    rewrite lookup_insert_ne by (apply not_eq_sym, getFullKey_not_indexKey).
    rewrite lookup_insert_eq. destruct (stringify v) eqn:E; [done|]. by rewrite Hrt.
  - intros id' Hid. apply getItem_congr.
    rewrite lookup_insert_ne by (apply not_eq_sym, getFullKey_not_indexKey).
    apply lookup_insert_ne. intros H. by apply getFullKey_inj in H.
Qed.

Lemma getItem_returns_what_setItem_stored_witness :
  (SampleCodec.parse (SampleCodec.stringify "v1") = Some "v1"
   ∧ SampleCodec.stringify "v1" ≠ EmptyString
   ∧ fst (sample_getIndex ∅) = Some [])
  ∧ ∃ st', sample_setItem "a" "v1" ∅ = (Some tt, st')
           ∧ sample_getItem "a" st' = (Some (Some "v1"), st').
Proof.
  assert (SampleCodec.stringify "v1" ≠ EmptyString) as Hne by discriminate.
  assert (fst (sample_getIndex ∅) = Some []) as Hix by reflexivity.
  split; [split; [reflexivity | split; [exact Hne | exact Hix]]|].
  destruct (getItem_returns_what_setItem_stored SampleCodec.stringify SampleCodec.parse
              SampleCodec.stringify_index SampleCodec.parse_index "user" ∅ [] "a" "v1"
              eq_refl Hne Hix) as (st' & Hset & Hget & _).
  exists st'. split; [exact Hset | exact Hget].
Defined.

(** X17. When the index can be read, [removeItem] ends without an
    exception, whether or not the id was ever set; [getItem] of that id
    then reports the item absent, and what it returns for every other id
    is unchanged. *)
Theorem getItem_is_absent_after_removeItem
  {T : Type} (parse : string → option T)
  (stringify_index : list string → string) (parse_index : string → option (list string))
  (prefix : string) (st : gmap string string) (index : list string) (id : string) :
  fst (LocalStorageWithIndex.getIndex parse_index prefix st) = Some index →
  ∃ st',
    LocalStorageWithIndex.removeItem stringify_index parse_index prefix id st = (Some tt, st')
    ∧ LocalStorageWithIndex.getItem parse prefix id st' = (Some None, st')
    ∧ ∀ id', id' ≠ id →
             fst (LocalStorageWithIndex.getItem parse prefix id' st')
             = fst (LocalStorageWithIndex.getItem parse prefix id' st).
Proof.
  intros Hix. eexists. split; [by rewrite removeItem_eval, Hix|]. split.
  - rewrite getItem_eval.
    rewrite lookup_insert_ne by (apply not_eq_sym, getFullKey_not_indexKey).
    by rewrite lookup_delete_eq.
  - intros id' Hid. apply getItem_congr.
    rewrite lookup_insert_ne by (apply not_eq_sym, getFullKey_not_indexKey).
    apply lookup_delete_ne. intros H. by apply getFullKey_inj in H.
Qed.

Lemma getItem_is_absent_after_removeItem_witness :
  fst (sample_getIndex ∅) = Some []
  ∧ ∃ st', sample_removeItem "a" ∅ = (Some tt, st')
           ∧ sample_getItem "a" st' = (Some None, st').
Proof.
  assert (fst (sample_getIndex ∅) = Some []) as Hix by reflexivity.
  split; [exact Hix|].
  destruct (getItem_is_absent_after_removeItem SampleCodec.parse
              SampleCodec.stringify_index SampleCodec.parse_index "user" ∅ [] "a" Hix)
    as (st' & Hrm & Hget & _).
  exists st'. split; [exact Hrm | exact Hget].
Defined.

(** X18. Every write leaves the index without repetition, whatever it
    held before: after [setItem] the index read back has no key twice and
    holds the composite key of the id together with the keys it held;
    after [removeItem] it has no key twice and holds the keys it held
    except the composite key of the id. *)
Theorem writes_keep_the_index_a_set
  {T : Type} (stringify : T → string)
  (stringify_index : list string → string) (parse_index : string → option (list string))
  (prefix : string) (st : gmap string string) (index : list string) (id : string) (v : T) :
  (∀ l, parse_index (stringify_index l) = Some l) →
  (∀ l, stringify_index l ≠ EmptyString) →
  fst (LocalStorageWithIndex.getIndex parse_index prefix st) = Some index →
  (∃ st' index',
      LocalStorageWithIndex.setItem stringify stringify_index parse_index prefix id v st
      = (Some tt, st')
      ∧ LocalStorageWithIndex.getIndex parse_index prefix st' = (Some index', st')
      ∧ NoDup index'
      ∧ ∀ k, k ∈ index' ↔ k = LocalStorageWithIndex.getFullKey prefix id ∨ k ∈ index)
  ∧ (∃ st' index',
      LocalStorageWithIndex.removeItem stringify_index parse_index prefix id st
      = (Some tt, st')
      ∧ LocalStorageWithIndex.getIndex parse_index prefix st' = (Some index', st')
      ∧ NoDup index'
      ∧ ∀ k, k ∈ index' ↔ k ≠ LocalStorageWithIndex.getFullKey prefix id ∧ k ∈ index).
Proof.
  intros Hrt Hne Hix. split.
  - eexists _, _. split; [by rewrite setItem_eval, Hix|].
    split; [by apply getIndex_written|]. split.
    + apply NoDup_Set_add, NoDup_Set_of.
    + intros k. by rewrite elem_of_Set_add, elem_of_Set_of.
  - eexists _, _. split; [by rewrite removeItem_eval, Hix|].
    split; [by apply getIndex_written|]. split.
    + unfold Set_delete. apply NoDup_filter, NoDup_Set_of.
    + intros k. by rewrite elem_of_Set_delete, elem_of_Set_of.
Qed.

Lemma writes_keep_the_index_a_set_witness :
  ((∀ l, SampleCodec.parse_index (SampleCodec.stringify_index l) = Some l)
   ∧ (∀ l, SampleCodec.stringify_index l ≠ EmptyString)
   ∧ fst (sample_getIndex
            {[ "__index__:user" := SampleCodec.stringify_index ["user-a"; "user-a"] ]})
     = Some ["user-a"; "user-a"])
  ∧ ∃ st' index',
      sample_setItem "a" "v1"
        {[ "__index__:user" := SampleCodec.stringify_index ["user-a"; "user-a"] ]}
      = (Some tt, st')
      ∧ sample_getIndex st' = (Some index', st')
      ∧ NoDup index'.
Proof.
  assert (fst (sample_getIndex
                 {[ "__index__:user" := SampleCodec.stringify_index ["user-a"; "user-a"] ]})
          = Some ["user-a"; "user-a"]) as Hix by (vm_compute; reflexivity).
  split; [split; [exact sample_parse_index_stringify
                 | split; [exact sample_stringify_index_nonempty | exact Hix]]|].
  destruct (proj1 (writes_keep_the_index_a_set SampleCodec.stringify
              SampleCodec.stringify_index SampleCodec.parse_index "user"
              {[ "__index__:user" := SampleCodec.stringify_index ["user-a"; "user-a"] ]}
              ["user-a"; "user-a"] "a" "v1"
              sample_parse_index_stringify sample_stringify_index_nonempty Hix))
    as (st' & index' & Hset & Hix' & Hnd & _).
  exists st', index'. split; [exact Hset|]. split; [exact Hix' | exact Hnd].
Defined.

(** X19. Reading never writes: [getItem] and [getAllItems] leave the
    storage exactly as it was, also when they end in an exception. *)
Theorem reads_leave_the_storage_alone
  {T : Type} (parse : string → option T) (parse_index : string → option (list string))
  (prefix : string) (st : gmap string string) (id : string) :
  snd (LocalStorageWithIndex.getItem parse prefix id st) = st
  ∧ snd (LocalStorageWithIndex.getAllItems parse parse_index prefix st) = st.
Proof.
  split; [by rewrite getItem_eval|].
  unfold LocalStorageWithIndex.getAllItems, LocalStorage.bind. rewrite getIndex_pair.
  destruct (fst (LocalStorageWithIndex.getIndex parse_index prefix st)); [|done].
  apply collect_snd.
Qed.

(** X20. With an index text that does not parse, every write throws
    after it has already changed the stored value, and leaves the index
    text as it was: [setItem] has stored the new text, [removeItem] has
    removed the stored text; [getAllItems] and [clearAll] throw without
    changing anything, and [getItem] still works. *)
Theorem corrupt_index_makes_writes_throw_halfway
  {T : Type} (stringify : T → string) (parse : string → option T)
  (stringify_index : list string → string) (parse_index : string → option (list string))
  (prefix : string) (st : gmap string string) (text : string) (id : string) (v : T) :
  st !! LocalStorageWithIndex.indexKey prefix = Some text →
  text ≠ EmptyString → parse_index text = None →
  LocalStorageWithIndex.setItem stringify stringify_index parse_index prefix id v st
  = (None, <[LocalStorageWithIndex.getFullKey prefix id := stringify v]> st)
  ∧ LocalStorageWithIndex.removeItem stringify_index parse_index prefix id st
    = (None, delete (LocalStorageWithIndex.getFullKey prefix id) st)
  ∧ LocalStorageWithIndex.getAllItems parse parse_index prefix st = (None, st)
  ∧ LocalStorageWithIndex.clearAll parse_index prefix st = (None, st)
  ∧ snd (LocalStorageWithIndex.getItem parse prefix id st) = st.
Proof.
  intros Hst Hne Hp.
  pose proof (getIndex_corrupt parse_index prefix st text Hst Hne Hp) as Hix.
  split; [by rewrite setItem_eval, Hix|]. split; [by rewrite removeItem_eval, Hix|].
  split; [unfold LocalStorageWithIndex.getAllItems, LocalStorage.bind; by rewrite Hix|].
  split; [unfold LocalStorageWithIndex.clearAll, LocalStorage.bind; by rewrite Hix|].
  by rewrite getItem_eval.
Qed.

Lemma corrupt_index_makes_writes_throw_halfway_witness :
  (corrupt_storage !! LocalStorageWithIndex.indexKey "user" = Some "x"
   ∧ "x" ≠ EmptyString ∧ SampleCodec.parse_index "x" = None)
  ∧ sample_setItem "a" "v1" corrupt_storage
    = (None, <[LocalStorageWithIndex.getFullKey "user" "a" := SampleCodec.stringify "v1"]>
               corrupt_storage).
Proof.
  assert ("x" ≠ EmptyString) as Hne by discriminate.
  assert (corrupt_storage !! LocalStorageWithIndex.indexKey "user" = Some "x") as Hst
    by reflexivity.
  split; [split; [exact Hst | split; [exact Hne | reflexivity]]|].
  apply (corrupt_index_makes_writes_throw_halfway SampleCodec.stringify SampleCodec.parse
           SampleCodec.stringify_index SampleCodec.parse_index "user" corrupt_storage "x"
           "a" "v1" Hst Hne eq_refl).
Defined.

(** X21. The cache keeps to its own keys: an operation on an id changes
    the storage at most at the index key and at the composite key of that
    id, and a whole sequence of operations leaves every key that is
    neither the index key nor a composite key of this prefix as it was --
    whether or not an operation threw. *)
Theorem operations_touch_only_their_own_keys
  {T : Type} (stringify : T → string)
  (stringify_index : list string → string) (parse_index : string → option (list string))
  (prefix : string) (st : gmap string string) (k : string) :
  k ≠ LocalStorageWithIndex.indexKey prefix →
  (∀ op : LocalStorageWithIndex.Op T,
      k ≠ LocalStorageWithIndex.getFullKey prefix (op_id op) →
      snd (LocalStorageWithIndex.perform stringify stringify_index parse_index prefix op st)
        !! k = st !! k)
  ∧ ((∀ id, k ≠ LocalStorageWithIndex.getFullKey prefix id) →
     ∀ ops : list (LocalStorageWithIndex.Op T),
       snd (LocalStorageWithIndex.performAll stringify stringify_index parse_index prefix
              ops st) !! k = st !! k).
Proof.
  intros Hix. split.
  - intros op Hk. by apply perform_frame.
  - intros Hk ops. by apply performAll_frame.
Qed.

Lemma operations_touch_only_their_own_keys_witness :
  ("theme" ≠ LocalStorageWithIndex.indexKey "user"
   ∧ "theme" ≠ LocalStorageWithIndex.getFullKey "user"
                 (op_id (LocalStorageWithIndex.OpSetItem "a" "v1")))
  ∧ snd (LocalStorageWithIndex.perform SampleCodec.stringify SampleCodec.stringify_index
           SampleCodec.parse_index "user" (LocalStorageWithIndex.OpSetItem "a" "v1")
           {[ "theme" := "dark" ]}) !! "theme"
    = ({[ "theme" := "dark" ]} : gmap string string) !! "theme".
Proof.
  assert ("theme" ≠ LocalStorageWithIndex.indexKey "user") as H1 by discriminate.
  assert ("theme" ≠ LocalStorageWithIndex.getFullKey "user"
                      (op_id (LocalStorageWithIndex.OpSetItem "a" "v1"))) as H2
    by discriminate.
  split; [split; [exact H1 | exact H2]|].
  apply (proj1 (operations_touch_only_their_own_keys SampleCodec.stringify
                  SampleCodec.stringify_index SampleCodec.parse_index "user"
                  {[ "theme" := "dark" ]} "theme" H1)
           (LocalStorageWithIndex.OpSetItem "a" "v1") H2).
Defined.



(** X23. Composite keys are unambiguous within a prefix: two ids have
    the same composite key only if they are the same id, and no id has the
    index key as its composite key, so no item can overwrite the index. *)
Theorem composite_keys_are_unambiguous (prefix id1 id2 : string) :
  (LocalStorageWithIndex.getFullKey prefix id1 = LocalStorageWithIndex.getFullKey prefix id2
   ↔ id1 = id2)
  ∧ LocalStorageWithIndex.getFullKey prefix id1 ≠ LocalStorageWithIndex.indexKey prefix.
Proof.
  split; [|apply getFullKey_not_indexKey].
  split; [apply getFullKey_inj | by intros ->].
Qed.

(** ** Nothing is queued, nothing is replayed *)

Section ReplayFacts.
Import WebSocketManager.

(** A step that is not a [send] call adds no frame to any socket. *)
Lemma step_sockets_quiet ev w j sk' :
  is_send_call ev = false →
  sockets (browser (step ev w)) !! j = Some sk' →
  (∃ sk, sockets (browser w) !! j = Some sk ∧ sent sk' = sent sk) ∨ sent sk' = [].
Proof.
  intros Hev Hl.
  apply step_sockets in Hl as [(sk & Hsk & _ & [Hs|(m & now & -> & Hs)])|[_ Hs]].
  - left. eauto.
  - done.
  - by right.
Qed.

Lemma run_sockets_quiet evs w j sk' f :
  forallb (λ ev, negb (is_send_call ev)) evs = true →
  sockets (browser (run evs w)) !! j = Some sk' → f ∈ sent sk' →
  ∃ sk, sockets (browser w) !! j = Some sk ∧ f ∈ sent sk.
Proof.
  revert w sk'. induction evs as [|ev evs IH]; intros w sk' Hall Hl Hin; [by eauto|].
  cbn in Hall. apply andb_prop in Hall as [Hev Hall]. apply negb_true_iff in Hev.
  change (run (ev :: evs) w) with (run evs (step ev w)) in Hl.
  destruct (IH _ _ Hall Hl Hin) as (sk1 & Hsk1 & Hin1).
  apply (step_sockets_quiet ev w j sk1 Hev) in Hsk1 as [(sk & Hsk & Hs)|Hs];
    rewrite Hs in Hin1.
  - eauto.
  - by apply elem_of_nil in Hin1.
Qed.

End ReplayFacts.

(** X24. An intent made while the manager holds no open socket is
    applied to the local mapping and its message is dropped: the world
    afterwards is the world before with the optimistic update made and one
    [console.error] line written, and nothing else -- no socket, timeout
    or manager field has changed.  Nothing is replayed later: through any
    trace without [send] calls (sockets opening, closing, reconnecting),
    every frame found in a socket was already in that socket before. *)
Theorem offline_intents_are_local_and_never_replayed :
  (∀ (i : Rounds.Intent) (now : string) (w : World),
      Manager.open_socket w = None →
      Rounds.call i now w
      = on_browser (log (console_error "WebSocket is not connected"))
          (on_app (setUsers (Rounds.optimistic i)) w))
  ∧ (∀ (evs : list Event) (w : World) (j : nat) (sk' : WebSocket) (f : Frame),
      forallb (λ ev, negb (is_send_call ev)) evs = true →
      sockets (browser (run evs w)) !! j = Some sk' → f ∈ sent sk' →
      ∃ sk, sockets (browser w) !! j = Some sk ∧ f ∈ sent sk).
Proof.
  split; [|apply run_sockets_quiet].
  intros i now w Ho.
  assert (∀ m f, snd (Manager.send m now (on_app f w))
                 = on_browser (log (console_error "WebSocket is not connected")) (on_app f w))
    as Hsend.
  { intros m f. unfold Manager.send.
    change (Manager.open_socket (on_app f w)) with (Manager.open_socket w). by rewrite Ho. }
  destruct i; cbn [Rounds.call Rounds.optimistic];
    unfold App.addUser, App.editUser, App.deleteUser; apply Hsend.
Qed.

Lemma offline_intents_are_local_and_never_replayed_witness :
  Manager.open_socket mounted = None
  ∧ Rounds.call (Rounds.IDelete "Mendy") "t0" mounted
    = on_browser (log (console_error "WebSocket is not connected"))
        (on_app (setUsers (Rounds.optimistic (Rounds.IDelete "Mendy"))) mounted).
Proof.
  split; [reflexivity|].
  apply (proj1 offline_intents_are_local_and_never_replayed). reflexivity.
Defined.

(** X25. [connect] does not close the socket it replaces: after a
    further [connect()] call an open socket is still open, and a frame
    arriving on it still reaches the callback -- the newly registered one
    -- although the manager now holds another socket. *)
Theorem connect_leaves_the_previous_socket_live
  (cb : Callback) (w : World) (s : nat) (f : Frame) :
  readyState_of s w = Some OPEN →
  readyState_of s (step (CallConnect cb) w) = Some OPEN
  ∧ app (step (EvMessage s f) (step (CallConnect cb) w)) = deliver cb (app w) f
  ∧ (accepts_url (browser w) (Manager.endpoint (mgr w)) = true →
     WebSocketManager.socket (mgr (step (CallConnect cb) w))
     = Some (length (sockets (browser w)))
     ∧ WebSocketManager.socket (mgr (step (CallConnect cb) w)) ≠ Some s).
Proof.
  intros Hr. change (step (CallConnect cb) w) with (Manager.connect cb w).
  assert (readyState_of s (Manager.connect cb w) = Some OPEN) as Hr'.
  { unfold readyState_of in *. destruct (connect_sockets cb w) as [-> | ->]; [done|].
    destruct (sockets (browser w) !! s) as [sk|] eqn:Hsk; [|done].
    by rewrite (lookup_app_l_Some _ _ _ _ Hsk). }
  destruct (connect_manager cb w) as (_ & _ & Hcb & Happ & _).
  split; [done|]. split.
  - destruct (step_arrival s f cb (Manager.connect cb w) Hr' Hcb) as (-> & _).
    by rewrite Happ.
  - intros Hurl. unfold Manager.connect. cbn [mgr on_mgr browser on_browser].
    change (Manager.endpoint (WebSocketManager.set_onMessageCallback (Some cb) (mgr w)))
      with (Manager.endpoint (mgr w)).
    rewrite Hurl. cbn. split; [done|]. intros [= Heq].
    unfold readyState_of in Hr. destruct (sockets (browser w) !! s) eqn:Hsk; [|done].
    apply lookup_lt_Some in Hsk. lia.
Qed.

Lemma connect_leaves_the_previous_socket_live_witness :
  readyState_of 0 connected_world = Some OPEN
  ∧ readyState_of 0 (step (CallConnect Reconciler.handleMessage) connected_world) = Some OPEN.
Proof.
  split; [reflexivity|].
  apply (connect_leaves_the_previous_socket_live Reconciler.handleMessage connected_world 0
           (add_frame "Mendy" 1)). reflexivity.
Defined.

Section UnparsableFacts.
Import LocalStorage LocalStorageWithIndex.

Lemma collect_throws {T : Type} (parse : string → option T)
  (index : list string) (st : gmap string string) (k text : string) :
  k ∈ index → st !! k = Some text → parse text = None →
  ∀ items, fst (collect parse index items st) = None.
Proof.
  intros Hin Hst Hp. induction index as [|key rest IH]; intros items.
  - by apply elem_of_nil in Hin.
  - cbn [collect]. unfold bind at 1, LocalStorage.getItem at 1.
    destruct (decide (k = key)) as [->|Hne].
    + rewrite Hst. unfold bind. by rewrite Hp.
    + apply elem_of_cons in Hin as [?|Hin]; [done|].
      destruct (st !! key) as [t|]; [|by apply IH].
      unfold bind at 1. destruct (parse t); cbn; [by apply IH|done].
Qed.

End UnparsableFacts.

(** X26. One stored text that does not parse breaks [getAllItems] for
    the whole cache: if the index lists a key whose text [JSON.parse]
    rejects, [getAllItems] throws.  The empty text is such a text, and the
    two readers disagree on it: [getItem] reports the item absent without
    parsing, [getAllItems] does not skip it. *)
Theorem one_unparsable_item_breaks_getAllItems
  {T : Type} (parse : string → option T) (parse_index : string → option (list string))
  (prefix : string) (st : gmap string string) (index : list string) (k text : string) :
  fst (LocalStorageWithIndex.getIndex parse_index prefix st) = Some index →
  k ∈ index → st !! k = Some text → parse text = None →
  LocalStorageWithIndex.getAllItems parse parse_index prefix st = (None, st)
  ∧ (∀ id, st !! LocalStorageWithIndex.getFullKey prefix id = Some EmptyString →
           LocalStorageWithIndex.getItem parse prefix id st = (Some None, st)).
Proof.
  intros Hix Hin Hst Hp. split.
  - unfold LocalStorageWithIndex.getAllItems, LocalStorage.bind.
    rewrite getIndex_pair, Hix.
    pose proof (collect_throws parse index st k text Hin Hst Hp ∅) as Hfst.
    pose proof (collect_snd parse index ∅ st) as Hsnd.
    destruct (LocalStorageWithIndex.collect parse index ∅ st) as [o st']. cbn in *.
    by subst.
  - intros id Hid. by rewrite getItem_eval, Hid.
Qed.

Lemma one_unparsable_item_breaks_getAllItems_witness :
  (fst (sample_getIndex storage_with_empty_item) = Some ["user-a"]
   ∧ "user-a" ∈ ["user-a"]
   ∧ storage_with_empty_item !! "user-a" = Some EmptyString
   ∧ parse_nonempty EmptyString = None)
  ∧ LocalStorageWithIndex.getAllItems parse_nonempty SampleCodec.parse_index "user"
      storage_with_empty_item = (None, storage_with_empty_item).
Proof.
  assert (fst (sample_getIndex storage_with_empty_item) = Some ["user-a"]) as Hix
    by (vm_compute; reflexivity).
  assert ("user-a" ∈ ["user-a"]) as Hin by (by left).
  assert (storage_with_empty_item !! "user-a" = Some EmptyString) as Hst by reflexivity.
  split; [split; [exact Hix | split; [exact Hin | split; [exact Hst | reflexivity]]]|].
  apply (one_unparsable_item_breaks_getAllItems parse_nonempty SampleCodec.parse_index "user"
           storage_with_empty_item ["user-a"] "user-a" EmptyString Hix Hin Hst eq_refl).
Defined.
